(** * The sRGB -> raw "unprocessing" pipeline of
      [mmagic/datasets/transforms/gcp_unprocess.py]

    A shallow embedding of the pipeline and the proofs of its properties.

    Conventions of the embedding.
    - A float tensor is a shape together with an index function into the
      reals: float32 arithmetic is idealised as real arithmetic, so the
      statements below are the exact, real-number form of laws that hold
      in the implementation up to rounding.
    - The ambient pseudo-random generator of torch is an explicit generator
      state threaded through the samplers ([TorchRng]).
    - A torch call that raises becomes an error value ([torch_error]).
    - The functions are modelled on the inputs the pipeline is written for,
      a three-channel image and 3x3 colour matrices; the broadcasting and
      reshaping failures torch reports on other shapes are outside the
      model, and a theorem that depends on the channel count carries
      [dim0 image = 3].
    - A division by zero is never relied on: where a statement divides by a
      drawn or given value, it assumes the value is not zero.
    - The noise injection ([add_noise], [add_noise_test]) is not embedded:
      it needs tensor-valued normal draws and a seeded generator object. *)

From Stdlib Require Import Reals Lra Lia List Arith PeanoNat Bool Psatz.
Import ListNotations.
Open Scope R_scope.

(** ** Tensors *)

Module Torch.

(** A 3-dimensional tensor: its size and its samples. *)
Record tensor3 : Type := mk3 {
  dim0 : nat;
  dim1 : nat;
  dim2 : nat;
  elt3 : nat -> nat -> nat -> R
}.

(** A 2-dimensional tensor (a matrix, or one colour plane). *)
Record tensor2 : Type := mk2 {
  rows : nat;
  cols : nat;
  elt2 : nat -> nat -> R
}.

(** Two tensors are the same array when their sizes agree and their
    samples agree at every index inside the size. *)
Definition teq3 (a b : tensor3) : Prop :=
  dim0 a = dim0 b /\ dim1 a = dim1 b /\ dim2 a = dim2 b /\
  forall i j k, (i < dim0 a)%nat -> (j < dim1 a)%nat -> (k < dim2 a)%nat ->
                elt3 a i j k = elt3 b i j k.

Definition teq2 (a b : tensor2) : Prop :=
  rows a = rows b /\ cols a = cols b /\
  forall i j, (i < rows a)%nat -> (j < cols a)%nat -> elt2 a i j = elt2 b i j.

(** [rsum n f] is f 0 + ... + f (n-1). *)
Fixpoint rsum (n : nat) (f : nat -> R) : R :=
  match n with
  | O => 0
  | S n' => rsum n' f + f n'
  end.

(** [t.permute(1, 2, 0)]: CxHxW to HxWxC. *)
Definition permute_1_2_0 (t : tensor3) : tensor3 :=
  mk3 (dim1 t) (dim2 t) (dim0 t) (fun h w c => elt3 t c h w).

(** [t.permute(2, 0, 1)]: HxWxC to CxHxW. *)
Definition permute_2_0_1 (t : tensor3) : tensor3 :=
  mk3 (dim2 t) (dim0 t) (dim1 t) (fun c h w => elt3 t h w c).

(** An elementwise unary operation. *)
Definition tmap (f : R -> R) (t : tensor3) : tensor3 :=
  mk3 (dim0 t) (dim1 t) (dim2 t) (fun i j k => f (elt3 t i j k)).

(** Broadcasting: an axis of size 1 is read at index 0 whatever the index
    asked for, and the result takes the other operand's size there. *)
Definition bidx (d i : nat) : nat := if Nat.eqb d 1 then O else i.
Definition bdim (a b : nat) : nat := if Nat.eqb a 1 then b else a.

Definition bget3 (t : tensor3) (i j k : nat) : R :=
  elt3 t (bidx (dim0 t) i) (bidx (dim1 t) j) (bidx (dim2 t) k).

Definition bget2 (t : tensor2) (i j : nat) : R :=
  elt2 t (bidx (rows t) i) (bidx (cols t) j).

(** An elementwise binary operation with broadcasting. *)
Definition zip3 (op : R -> R -> R) (a b : tensor3) : tensor3 :=
  mk3 (bdim (dim0 a) (dim0 b)) (bdim (dim1 a) (dim1 b)) (bdim (dim2 a) (dim2 b))
      (fun i j k => op (bget3 a i j k) (bget3 b i j k)).

Definition zip2 (op : R -> R -> R) (a b : tensor2) : tensor2 :=
  mk2 (bdim (rows a) (rows b)) (bdim (cols a) (cols b))
      (fun i j => op (bget2 a i j) (bget2 b i j)).

(** [torch.clamp(x, min=lo)] and [torch.clamp(x, min=lo, max=hi)] on one
    sample. *)
Definition clamp_min (lo x : R) : R := Rmax x lo.
Definition clamp (lo hi x : R) : R := Rmin (Rmax x lo) hi.

(** [torch.mean(t, dim=-1, keepdim=True)]. *)
Definition mean_last_keepdim (t : tensor3) : tensor3 :=
  mk3 (dim0 t) (dim1 t) 1
      (fun i j _ => rsum (dim2 t) (fun k => elt3 t i j k) / INR (dim2 t)).

(** [torch.sum(t, dim=0)] of a 3-dimensional tensor. *)
Definition sum_dim0 (t : tensor3) : tensor2 :=
  mk2 (dim1 t) (dim2 t) (fun j k => rsum (dim0 t) (fun i => elt3 t i j k)).

(** [torch.sum(m, dim=-1, keepdim=True)] of a matrix. *)
Definition sum_last_keepdim (m : tensor2) : tensor2 :=
  mk2 (rows m) 1 (fun i _ => rsum (cols m) (fun j => elt2 m i j)).

(** [torch.mm(a, b)]. *)
Definition mm (a b : tensor2) : tensor2 :=
  mk2 (rows a) (cols b)
      (fun i j => rsum (cols a) (fun k => elt2 a i k * elt2 b k j)).

(** [torch.FloatTensor(l)] of a nested list literal. *)
Definition of_list2 (l : list (list R)) : tensor2 :=
  mk2 (length l) (length (hd [] l)) (fun i j => nth j (nth i l []) 0).

Definition of_list3 (l : list (list (list R))) : tensor3 :=
  mk3 (length l) (length (hd [] l)) (length (hd [] (hd [] l)))
      (fun i j k => nth k (nth j (nth i l []) []) 0).

(** The samples in row-major order, as [torch.reshape] reads them. *)
Definition numel3 (t : tensor3) : nat := (dim0 t * dim1 t * dim2 t)%nat.

Definition flat3 (t : tensor3) (f : nat) : R :=
  elt3 t (f / (dim1 t * dim2 t)) ((f / dim2 t) mod dim1 t) (f mod dim2 t).

Definition flat2 (m : tensor2) (f : nat) : R :=
  elt2 m (f / cols m) (f mod cols m).

(** [torch.reshape(t, [-1, n])]. *)
Definition reshape_rows (t : tensor3) (n : nat) : tensor2 :=
  mk2 (numel3 t / n) n (fun r c => flat3 t (r * n + c)).

(** [torch.reshape(m, (a, b, c))] of a matrix. *)
Definition reshape2_to3 (m : tensor2) (a b c : nat) : tensor3 :=
  mk3 a b c (fun i j k => flat2 m ((i * b + j) * c + k)).

(** [torch.reshape(t, (a, b, c))] of a 3-dimensional tensor. *)
Definition reshape3 (t : tensor3) (a b c : nat) : tensor3 :=
  mk3 a b c (fun i j k => flat3 t ((i * b + j) * c + k)).

(** [torch.tensordot(x, m, dims=[[-1], [-1]])] of two matrices: the last
    axis of [x] is contracted with the last axis of [m]. *)
Definition tensordot_last (x m : tensor2) : tensor2 :=
  mk2 (rows x) (rows m)
      (fun n c => rsum (cols x) (fun k => elt2 x n k * elt2 m c k)).

(** [t[r0::2, c0::2, ch]] of an HxWxC tensor. *)
Definition slice_step2 (t : tensor3) (r0 c0 ch : nat) : tensor2 :=
  mk2 ((dim0 t - r0 + 1) / 2) ((dim1 t - c0 + 1) / 2)
      (fun i j => elt3 t (r0 + 2 * i) (c0 + 2 * j) ch).

(** What a torch call reports when it raises. *)
Inductive torch_error : Type :=
| StackSizeMismatch   (* torch.stack: tensors of unequal size *)
| SingularMatrix.     (* torch.inverse: the matrix has no inverse *)

Definition result (A : Type) : Type := (torch_error + A)%type.

Definition same_size2 (a b : tensor2) : bool :=
  Nat.eqb (rows a) (rows b) && Nat.eqb (cols a) (cols b).

(** [torch.stack((t, rest...), dim=-1)]. *)
Definition stack_last (t : tensor2) (rest : list tensor2) : result tensor3 :=
  if forallb (same_size2 t) rest
  then inr (mk3 (rows t) (cols t) (S (length rest))
                (fun i j c => elt2 (nth c (t :: rest) t) i j))
  else inl StackSizeMismatch.

(** The determinant and [torch.inverse] of a 3x3 matrix. *)
Definition det3 (m : tensor2) : R :=
  elt2 m 0 0 * (elt2 m 1 1 * elt2 m 2 2 - elt2 m 1 2 * elt2 m 2 1)
  - elt2 m 0 1 * (elt2 m 1 0 * elt2 m 2 2 - elt2 m 1 2 * elt2 m 2 0)
  + elt2 m 0 2 * (elt2 m 1 0 * elt2 m 2 1 - elt2 m 1 1 * elt2 m 2 0).

Definition cofactor3 (m : tensor2) (i j : nat) : R :=
  let i1 := ((i + 1) mod 3)%nat in let i2 := ((i + 2) mod 3)%nat in
  let j1 := ((j + 1) mod 3)%nat in let j2 := ((j + 2) mod 3)%nat in
  elt2 m i1 j1 * elt2 m i2 j2 - elt2 m i1 j2 * elt2 m i2 j1.

Definition inverse (m : tensor2) : result tensor2 :=
  if Req_dec_T (det3 m) 0
  then inl SingularMatrix
  else inr (mk2 3 3 (fun i j => cofactor3 m j i / det3 m)).

End Torch.
Import Torch.

(** ** The random generator and the sampling monad *)

(** The generator torch draws from.  [uniform_ lo hi] is one sample of
    [FloatTensor(1).uniform_(lo, hi)], [normal_sample loc scale] one sample of
    [Normal(loc, scale).sample()]; each returns the sample and the generator
    after the draw.  A uniform sample lies in its range; a normal sample is
    any real. *)
Class TorchRng (G : Type) : Type := {
  uniform_ : R -> R -> G -> R * G;
  normal_sample : R -> R -> G -> R * G;
  uniform_range : forall lo hi g, lo <= hi -> lo <= fst (uniform_ lo hi g) <= hi
}.

(** A computation that reads the generator and may raise. *)
Definition M (G A : Type) : Type := G -> result (A * G).

Definition ret {G A : Type} (a : A) : M G A := fun g => inr (a, g).

Definition bind {G A B : Type} (c : M G A) (k : A -> M G B) : M G B :=
  fun g => match c g with
           | inl e => inl e
           | inr (a, g') => k a g'
           end.

Definition lift {G A : Type} (r : result A) : M G A :=
  fun g => match r with
           | inl e => inl e
           | inr a => inr (a, g)
           end.

Notation "x <- c ;; k" := (bind c (fun x => k))
  (at level 61, c at next level, right associativity).
Notation "' pat <- c ;; k" := (bind c (fun x => match x with pat => k end))
  (at level 61, pat pattern, c at next level, right associativity).

(** ** The pipeline *)

(** The dictionary returned next to the image. *)
Record metadata : Type := mk_metadata {
  cam2rgb : tensor2;
  rgb2cam : tensor2;
  rgb_gain : R;
  red_gain : R;
  blue_gain : R
}.

Definition xyz2cams : list (list (list R)) :=
  [ [ [1.0234; -0.2969; -0.2266]; [-0.5625; 1.6328; -0.0469];
      [-0.0703; 0.2188; 0.6406] ];
    [ [0.4913; -0.0541; -0.0202]; [-0.613; 1.3513; 0.2906];
      [-0.1564; 0.2151; 0.7183] ];
    [ [0.838; -0.263; -0.0639]; [-0.2887; 1.0725; 0.2496];
      [-0.0627; 0.1427; 0.5438] ];
    [ [0.6596; -0.2079; -0.0562]; [-0.4782; 1.3016; 0.1933];
      [-0.097; 0.1581; 0.5181] ] ].

Definition rgb2xyz : list (list R) :=
  [ [0.4124564; 0.3575761; 0.1804375];
    [0.2126729; 0.7151522; 0.0721750];
    [0.0193339; 0.1191920; 0.9503041] ].

(** The colour matrix computed from the drawn weights (lines 18-32 of the
    source, after the draw). *)
Definition ccm_of_weights (ws : list R) : tensor2 :=
  let num_ccms := length xyz2cams in
  let xyz2cams := of_list3 xyz2cams in
  let weights := mk3 num_ccms 1 1 (fun i _ _ => nth i ws 0) in
  let weights_sum := sum_dim0 weights in
  let xyz2cam := zip2 Rdiv (sum_dim0 (zip3 Rmult xyz2cams weights)) weights_sum in
  (* Multiplies with RGB -> XYZ to get RGB -> Camera CCM. *)
  let rgb2xyz := of_list2 rgb2xyz in
  let rgb2cam := mm xyz2cam rgb2xyz in
  (* Normalizes each row. *)
  zip2 Rdiv rgb2cam (sum_last_keepdim rgb2cam).

Section Pipeline.

Context {G : Type} {rng : TorchRng G}.

Definition draw_uniform (lo hi : R) : M G R := fun g => inr (uniform_ lo hi g).
Definition draw_normal (loc scale : R) : M G R :=
  fun g => inr (normal_sample loc scale g).

(** [torch.FloatTensor(n, 1, 1).uniform_(lo, hi)]: n draws in order. *)
Fixpoint uniform_fill (n : nat) (lo hi : R) : M G (list R) :=
  match n with
  | O => ret []
  | S n' => w <- draw_uniform lo hi ;;
            ws <- uniform_fill n' lo hi ;;
            ret (w :: ws)
  end.

(** Generates random RGB -> Camera color correction matrices. *)
Definition random_ccm : M G tensor2 :=
  ws <- uniform_fill (length xyz2cams) 1e-8 1e8 ;;
  ret (ccm_of_weights ws).

(** Generates random gains for brightening and white balance. *)
Definition random_gains (rgb_gain_ratio : R) (red_gain_range blue_gain_range : R * R)
  : M G (R * R * R) :=
  (* RGB gain represents brightening. *)
  n <- draw_normal 0.8 0.1 ;;
  let rgb_gain := 1.0 / n in
  let rgb_gain := rgb_gain_ratio * rgb_gain in
  (* Red and blue gains represent white balance. *)
  red_gain <- draw_uniform (fst red_gain_range) (snd red_gain_range) ;;
  blue_gain <- draw_uniform (fst blue_gain_range) (snd blue_gain_range) ;;
  ret (rgb_gain, red_gain, blue_gain).

(** [random_gains()] with its default arguments. *)
Definition random_gains_default : M G (R * R * R) :=
  random_gains 1.0 (1.9, 2.4) (1.5, 1.9).

End Pipeline.

(** Approximately inverts a global tone mapping curve. *)
Definition inverse_smoothstep (image : tensor3) : tensor3 :=
  let image := permute_1_2_0 image in
  let image := tmap (clamp 0.0 1.0) image in
  let out := tmap (fun y => 0.5 - sin (asin (1.0 - 2.0 * y) / 3.0)) image in
  permute_2_0_1 out.

(** Converts from gamma to linear space. *)
Definition gamma_expansion (image : tensor3) : tensor3 :=
  let image := permute_1_2_0 image in
  let out := tmap (fun x => Rpower (clamp_min 1e-8 x) 2.2) image in
  permute_2_0_1 out.

(** Applies a color correction matrix. *)
Definition apply_ccm (image : tensor3) (ccm : tensor2) : tensor3 :=
  let image := permute_1_2_0 image in
  let shape := (dim0 image, dim1 image, dim2 image) in
  let image := reshape_rows image 3 in
  let image := tensordot_last image ccm in
  let out := reshape2_to3 image (fst (fst shape)) (snd (fst shape)) (snd shape) in
  permute_2_0_1 out.

(** Inverts gains while safely handling saturated pixels.  The gains are
    one-sample tensors in the source and reals here; [x ** 2.0] is the
    square of [x]. *)
Definition safe_invert_gains (image : tensor3) (rgb_gain red_gain blue_gain : R)
  : tensor3 :=
  let image := permute_1_2_0 image in
  let gains :=
    mk3 1 1 3 (fun _ _ c => nth c [1.0 / red_gain; 1.0; 1.0 / blue_gain] 0 / rgb_gain) in
  (* Prevents dimming of saturated pixels by smoothly masking gains near white *)
  let gray := mean_last_keepdim image in
  let inflection := 0.9 in
  let mask :=
    tmap (fun g => (clamp_min 0.0 (g - inflection) / (1.0 - inflection)) ^ 2) gray in
  let safe_gains :=
    zip3 Rmax (zip3 Rplus mask (zip3 Rmult (tmap (fun m => 1.0 - m) mask) gains))
         gains in
  let out := zip3 Rmult image safe_gains in
  permute_2_0_1 out.

(** Extracts RGGB Bayer planes from an RGB image. *)
Definition mosaic (image : tensor3) : result tensor3 :=
  let image := permute_1_2_0 image in
  let shape := (dim0 image, dim1 image, dim2 image) in
  let red := slice_step2 image 0 0 0 in
  let green_red := slice_step2 image 0 1 1 in
  let green_blue := slice_step2 image 1 0 1 in
  let blue := slice_step2 image 1 1 2 in
  match stack_last red [green_red; green_blue; blue] with
  | inl e => inl e
  | inr out =>
      let out := reshape3 out (fst (fst shape) / 2) (snd (fst shape) / 2) 4 in
      inr (permute_2_0_1 out)
  end.

Section Entry_points.

Context {G : Type} {rng : TorchRng G}.

(** Unprocesses an image from sRGB to realistic raw data. *)
Definition unprocess (image : tensor3) : M G (tensor3 * metadata) :=
  (* Randomly creates image metadata. *)
  rgb2cam <- random_ccm ;;
  cam2rgb <- lift (inverse rgb2cam) ;;
  '(rgb_gain, red_gain, blue_gain) <- random_gains_default ;;
  (* Approximately inverts global tone mapping. *)
  let image := inverse_smoothstep image in
  (* Inverts gamma compression. *)
  let image := gamma_expansion image in
  (* Inverts color correction. *)
  let image := apply_ccm image rgb2cam in
  (* Approximately inverts white balance and brightening. *)
  let image := safe_invert_gains image rgb_gain red_gain blue_gain in
  (* Clips saturated pixels. *)
  let image := tmap (clamp 0.0 1.0) image in
  (* Applies a Bayer mosaic. *)
  image <- lift (mosaic image) ;;
  ret (image, mk_metadata cam2rgb rgb2cam rgb_gain red_gain blue_gain).

Definition unprocess_gt (image : tensor3) : M G (tensor3 * metadata) :=
  (* Randomly creates image metadata. *)
  rgb2cam <- random_ccm ;;
  cam2rgb <- lift (inverse rgb2cam) ;;
  '(rgb_gain, red_gain, blue_gain) <- random_gains_default ;;
  let image := inverse_smoothstep image in
  let image := gamma_expansion image in
  let image := apply_ccm image rgb2cam in
  let image := safe_invert_gains image rgb_gain red_gain blue_gain in
  (* Clips saturated pixels. *)
  let image := tmap (clamp 0.0 1.0) image in
  ret (image, mk_metadata cam2rgb rgb2cam rgb_gain red_gain blue_gain).

Definition unprocess_meta_gt (image : tensor3) (rgb_gains red_gains blue_gains : R)
           (rgb2cam cam2rgb : tensor2) : M G (tensor3 * metadata) :=
  let image := inverse_smoothstep image in
  let image := gamma_expansion image in
  let image := apply_ccm image rgb2cam in
  let image := safe_invert_gains image rgb_gains red_gains blue_gains in
  (* Clips saturated pixels. *)
  let image := tmap (clamp 0.0 1.0) image in
  ret (image, mk_metadata cam2rgb rgb2cam rgb_gains red_gains blue_gains).

End Entry_points.

(** ** The noise-level samplers *)

Section Noise_levels.

Context {G : Type} {rng : TorchRng G}.

(** Generates random noise levels from a log-log linear distribution. *)
Definition random_noise_levels : M G (R * R) :=
  let log_min_shot_noise := ln 0.0001 in
  let log_max_shot_noise := ln 0.012 in
  log_shot_noise <- draw_uniform log_min_shot_noise log_max_shot_noise ;;
  let shot_noise := exp log_shot_noise in
  let line := fun x => 2.18 * x + 1.20 in
  n <- draw_normal 0.0 0.26 ;;
  let log_read_noise := line log_shot_noise + n in
  let read_noise := exp log_read_noise in
  ret (shot_noise, read_noise).

End Noise_levels.

(** The generator numpy draws from: [np_uniform lo hi] is one sample of
    [np.random.uniform(lo, hi, (1, ))], a value of the range, with the
    generator after the draw. *)
Class NumpyRng (G : Type) : Type := {
  np_uniform : R -> R -> G -> R * G;
  np_uniform_range : forall lo hi g, lo <= hi -> lo <= fst (np_uniform lo hi g) <= hi
}.

Section Noise_levels_kpn.

Context {G : Type} {nprng : NumpyRng G}.

Definition draw_np_uniform (lo hi : R) : M G R := fun g => inr (np_uniform lo hi g).

(** [random_noise_levels_kpn()]; [np.power(10, u)] is [Rpower 10 u]. *)
Definition random_noise_levels_kpn : M G (R * R) :=
  u_read <- draw_np_uniform (-3.0) (-1.5) ;;
  let sigma_read := Rpower 10 u_read in
  u_shot <- draw_np_uniform (-4.0) (-2.0) ;;
  let sigma_shot := Rpower 10 u_shot in
  ret (sigma_shot, sigma_read).

End Noise_levels_kpn.

(** ** Statement vocabulary *)

(** The forward tone curve the tone stage inverts, as the specification
    writes it: y = 3x^2 - 2x^3.  It is not a function of the source. *)
Definition smoothstep (x : R) : R := 3 * x ^ 2 - 2 * x ^ 3.

(** Every sample of the tensor lies in [lo, hi]. *)
Definition samples_in (lo hi : R) (t : tensor3) : Prop :=
  forall i j k, (i < dim0 t)%nat -> (j < dim1 t)%nat -> (k < dim2 t)%nat ->
                lo <= elt3 t i j k <= hi.

(** Every sample of the tensor is at least [lo]. *)
Definition samples_ge (lo : R) (t : tensor3) : Prop :=
  forall i j k, (i < dim0 t)%nat -> (j < dim1 t)%nat -> (k < dim2 t)%nat ->
                lo <= elt3 t i j k.

(** A constant CxHxW image. *)
Definition constant_image (c h w : nat) (v : R) : tensor3 :=
  mk3 c h w (fun _ _ _ => v).

(** The gain the source applies to channel [c] before the highlight mask. *)
Definition channel_gain (rgb_gain red_gain blue_gain : R) (c : nat) : R :=
  nth c [1.0 / red_gain; 1.0; 1.0 / blue_gain] 0 / rgb_gain.

(** The highlight mask of the pixel (h, w) of a CxHxW image. *)
Definition highlight_mask (image : tensor3) (h w : nat) : R :=
  (clamp_min 0.0 (rsum (dim0 image) (fun k => elt3 image k h w) / INR (dim0 image) - 0.9)
   / (1.0 - 0.9)) ^ 2.

(** The gain inversion without the highlight mask, as the claim writes it:
    image * ((1/red_gain, 1, 1/blue_gain) / rgb_gain).  It is not a function
    of the source. *)
Definition plain_invert_gains (image : tensor3) (rgb_gain red_gain blue_gain : R)
  : tensor3 :=
  mk3 (dim0 image) (dim1 image) (dim2 image)
      (fun c h w => elt3 image c h w
                    * (nth c [1 / red_gain; 1; 1 / blue_gain] 0 / rgb_gain)).

(** [a] is below [b] at every sample. *)
Definition tle3 (a b : tensor3) : Prop :=
  dim0 a = dim0 b /\ dim1 a = dim1 b /\ dim2 a = dim2 b /\
  forall i j k, (i < dim0 a)%nat -> (j < dim1 a)%nat -> (k < dim2 a)%nat ->
                elt3 a i j k <= elt3 b i j k.

(** Every sample of the image is 1.0. *)
Definition saturated (image : tensor3) : Prop :=
  forall c h w, (c < dim0 image)%nat -> (h < dim1 image)%nat -> (w < dim2 image)%nat ->
                elt3 image c h w = 1.0.

(** The RGB -> camera matrix before its rows are normalised (the value of
    [rgb2cam] on line 28 of the source). *)
Definition rgb2cam_unnormalised (ws : list R) : tensor2 :=
  let weights := mk3 (length xyz2cams) 1 1 (fun i _ _ => nth i ws 0) in
  mm (zip2 Rdiv (sum_dim0 (zip3 Rmult (of_list3 xyz2cams) weights)) (sum_dim0 weights))
     (of_list2 rgb2xyz).

(** The deterministic stages the three entry points share, in the order of
    the source: tone curve, gamma, colour matrix, gains, clip. *)
Definition colour_chain (image : tensor3) (rgb2cam : tensor2)
           (rgb_gain red_gain blue_gain : R) : tensor3 :=
  tmap (clamp 0.0 1.0)
       (safe_invert_gains
          (apply_ccm (gamma_expansion (inverse_smoothstep image)) rgb2cam)
          rgb_gain red_gain blue_gain).

(** A 3x2x2 image whose samples are all different. *)
Definition ramp_image : tensor3 :=
  mk3 3 2 2 (fun c h w => INR (c * 4 + h * 2 + w)).

Section Draws.

Context {G : Type} {rng : TorchRng G}.

(** The three draws of [random_gains()], in the order of the source. *)
Definition normal_draw (g : G) : R := fst (normal_sample 0.8 0.1 g).
Definition red_draw (g : G) : R :=
  fst (uniform_ 1.9 2.4 (snd (normal_sample 0.8 0.1 g))).
Definition blue_draw (g : G) : R :=
  fst (uniform_ 1.5 1.9 (snd (uniform_ 1.9 2.4 (snd (normal_sample 0.8 0.1 g))))).
Definition after_gains (g : G) : G :=
  snd (uniform_ 1.5 1.9 (snd (uniform_ 1.9 2.4 (snd (normal_sample 0.8 0.1 g))))).

End Draws.

(** A generator that replays a script: each draw takes the next scripted
    value, a uniform draw brought into its range; when the script is used
    up a draw returns the low end of the range, or the mean. *)
Definition scripted_uniform (lo hi : R) (g : list R) : R * list R :=
  match g with
  | [] => (lo, [])
  | x :: g' => (Rmax lo (Rmin x hi), g')
  end.

Definition scripted_normal (loc scale : R) (g : list R) : R * list R :=
  match g with
  | [] => (loc, [])
  | x :: g' => (x, g')
  end.

Lemma scripted_uniform_range (lo hi : R) (g : list R) :
  lo <= hi -> lo <= fst (scripted_uniform lo hi g) <= hi.
Proof.
  intros Hle. destruct g as [|x g']; simpl.
  - lra.
  - split.
    + apply Rmax_l.
    + apply Rmax_lub; [exact Hle | apply Rmin_r].
Qed.

#[export] Instance scripted_rng : TorchRng (list R) := {
  uniform_ := scripted_uniform;
  normal_sample := scripted_normal;
  uniform_range := scripted_uniform_range
}.

(** The 3x3 identity matrix. *)
Definition eye3 : tensor2 := mk2 3 3 (fun i j => if Nat.eqb i j then 1 else 0).

(** Every pixel of the image has its three channels equal. *)
Definition gray_image (image : tensor3) : Prop :=
  forall h w, (h < dim1 image)%nat -> (w < dim2 image)%nat ->
              elt3 image 1 h w = elt3 image 0 h w /\ elt3 image 2 h w = elt3 image 0 h w.

(** A numpy generator that replays a script, as [scripted_rng] does. *)
#[export] Instance scripted_nprng : NumpyRng (list R) := {
  np_uniform := scripted_uniform;
  np_uniform_range := scripted_uniform_range
}.

(** ** The tone stage *)

Lemma sin_3a (a : R) : sin (3 * a) = 3 * sin a - 4 * sin a ^ 3.
Proof.
  replace (3 * a) with (2 * a + a) by ring.
  rewrite sin_plus, sin_2a, cos_2a_sin.
  pose proof (sin2_cos2 a) as Hsc. unfold Rsqr in Hsc.
  replace (2 * sin a * cos a * cos a) with (2 * sin a * (cos a * cos a)) by ring.
  replace (cos a * cos a) with (1 - sin a * sin a) by lra.
  ring.
Qed.

Lemma clamp_unit_range (x : R) : 0 <= clamp 0.0 1.0 x <= 1.
Proof.
  unfold clamp, Rmin, Rmax.
  destruct (Rle_dec x 0.0); destruct (Rle_dec _ 1.0); lra.
Qed.

Lemma clamp_unit_id (x : R) : 0 <= x <= 1 -> clamp 0.0 1.0 x = x.
Proof.
  intros Hx. unfold clamp, Rmin, Rmax.
  destruct (Rle_dec x 0.0); destruct (Rle_dec _ 1.0); lra.
Qed.

(** The tone inverse on one sample of [0,1] is a root of the cubic. *)
Lemma smoothstep_tone_inverse (y : R) :
  0 <= y <= 1 ->
  smoothstep (0.5 - sin (asin (1.0 - 2.0 * y) / 3.0)) = y.
Proof.
  intros Hy.
  assert (Hs : sin (3 * (asin (1.0 - 2.0 * y) / 3.0)) = 1 - 2 * y).
  { replace (3 * (asin (1.0 - 2.0 * y) / 3.0)) with (asin (1.0 - 2.0 * y)) by lra.
    rewrite sin_asin; lra. }
  rewrite sin_3a in Hs.
  unfold smoothstep.
  set (s := sin (asin (1.0 - 2.0 * y) / 3.0)) in *.
  replace (3 * (0.5 - s) ^ 2 - 2 * (0.5 - s) ^ 3)
    with (1 / 2 - (3 * s - 4 * s ^ 3) / 2) by nra.
  rewrite Hs. lra.
Qed.

(** The tone inverse on one sample of [0,1] stays in [0,1]. *)
Lemma tone_inverse_range (y : R) :
  0 <= y <= 1 ->
  0 <= 0.5 - sin (asin (1.0 - 2.0 * y) / 3.0) <= 1.
Proof.
  intros Hy.
  pose proof (asin_bound (1.0 - 2.0 * y)) as [Hlo Hhi].
  pose proof PI_RGT_0 as Hpi.
  set (a := asin (1.0 - 2.0 * y) / 3.0).
  assert (Ha : - (PI / 6) <= a <= PI / 6) by (unfold a; lra).
  assert (Hup : sin a <= 1 / 2).
  { rewrite <- sin_PI6. apply sin_incr_1; lra. }
  assert (Hdn : - (1 / 2) <= sin a).
  { rewrite <- sin_PI6, <- sin_neg. apply sin_incr_1; lra. }
  lra.
Qed.

(** C7. For every image whose samples all lie in [0,1], applying
    [inverse_smoothstep] and then the forward tone curve 3x^2 - 2x^3 to
    every sample gives back the image (exactly, over the reals). *)
Theorem inverse_smoothstep_round_trip (image : tensor3) :
  samples_in 0 1 image ->
  teq3 (tmap smoothstep (inverse_smoothstep image)) image.
Proof.
  intros Hin. unfold teq3. simpl. repeat split; try reflexivity.
  intros c h w Hc Hh Hw.
  rewrite clamp_unit_id by (apply Hin; assumption).
  apply smoothstep_tone_inverse. apply Hin; assumption.
Qed.

Lemma inverse_smoothstep_round_trip_witness :
  samples_in 0 1 (constant_image 3 2 2 0.25) /\
  teq3 (tmap smoothstep (inverse_smoothstep (constant_image 3 2 2 0.25)))
       (constant_image 3 2 2 0.25).
Proof.
  assert (H : samples_in 0 1 (constant_image 3 2 2 0.25)).
  { intros i j k _ _ _. simpl. lra. }
  split; [exact H | exact (inverse_smoothstep_round_trip _ H)].
Defined.

(** C9. Whatever the values of the input image, every sample of the
    output of [inverse_smoothstep] lies in [0,1]. *)
Theorem inverse_smoothstep_range (image : tensor3) :
  samples_in 0 1 (inverse_smoothstep image).
Proof.
  intros c h w _ _ _. simpl.
  apply tone_inverse_range. apply clamp_unit_range.
Qed.

(** ** The gain stage *)

Lemma bidx_lt (d i : nat) : (i < d)%nat -> bidx d i = i.
Proof.
  intros Hlt. unfold bidx. destruct (Nat.eqb_spec d 1); [lia | reflexivity].
Qed.

Lemma bdim_1_r (a : nat) : bdim a 1 = a.
Proof. unfold bdim. destruct (Nat.eqb_spec a 1); congruence. Qed.

Lemma bdim_same (a : nat) : bdim a a = a.
Proof. unfold bdim. destruct (Nat.eqb a 1); reflexivity. Qed.

(** The size of the output of the gain stage on a three-channel image. *)
Lemma safe_invert_gains_dims (image : tensor3) (rgb_gain red_gain blue_gain : R) :
  dim0 image = 3%nat ->
  dim0 (safe_invert_gains image rgb_gain red_gain blue_gain) = dim0 image /\
  dim1 (safe_invert_gains image rgb_gain red_gain blue_gain) = dim1 image /\
  dim2 (safe_invert_gains image rgb_gain red_gain blue_gain) = dim2 image.
Proof.
  intros HC. destruct image as [C H W f]. simpl in *. subst C.
  rewrite !bdim_1_r, !bdim_same. repeat split; reflexivity.
Qed.

(** The samples of the output of the gain stage on a three-channel image. *)
Lemma safe_invert_gains_elt (image : tensor3) (rgb_gain red_gain blue_gain : R)
      (c h w : nat) :
  dim0 image = 3%nat -> (c < 3)%nat -> (h < dim1 image)%nat -> (w < dim2 image)%nat ->
  elt3 (safe_invert_gains image rgb_gain red_gain blue_gain) c h w =
  elt3 image c h w *
  Rmax (highlight_mask image h w
        + (1.0 - highlight_mask image h w) * channel_gain rgb_gain red_gain blue_gain c)
       (channel_gain rgb_gain red_gain blue_gain c).
Proof.
  intros HC Hc Hh Hw. destruct image as [C H W f]. simpl in *. subst C.
  unfold bget3, highlight_mask, channel_gain. simpl.
  rewrite !bdim_1_r, !bdim_same.
  rewrite !(bidx_lt H h), !(bidx_lt W w), !(bidx_lt 3 c) by assumption.
  reflexivity.
Qed.

Lemma channel_gain_plain (rgb_gain red_gain blue_gain : R) (c : nat) :
  channel_gain rgb_gain red_gain blue_gain c
  = nth c [1 / red_gain; 1; 1 / blue_gain] 0 / rgb_gain.
Proof.
  unfold channel_gain.
  destruct c as [|[|[|c]]]; simpl; replace 1.0 with 1 by lra; reflexivity.
Qed.

(** C10. For every three-channel image with nonnegative samples and every
    positive gains, the output of [safe_invert_gains] is, sample by sample,
    at least the plain gain inversion
    image * ((1/red_gain, 1, 1/blue_gain) / rgb_gain). *)
Theorem safe_invert_gains_ge_plain (image : tensor3) (rgb_gain red_gain blue_gain : R) :
  dim0 image = 3%nat ->
  samples_ge 0 image ->
  0 < rgb_gain -> 0 < red_gain -> 0 < blue_gain ->
  tle3 (plain_invert_gains image rgb_gain red_gain blue_gain)
       (safe_invert_gains image rgb_gain red_gain blue_gain).
Proof.
  intros HC Hpos _ _ _.
  destruct (safe_invert_gains_dims image rgb_gain red_gain blue_gain HC)
    as (H0 & H1 & H2).
  split; [symmetry; exact H0 | split; [symmetry; exact H1 | split; [symmetry; exact H2 |]]].
  intros c h w Hc Hh Hw. simpl in Hc, Hh, Hw.
  rewrite safe_invert_gains_elt by (try assumption; lia).
  unfold plain_invert_gains. cbn [elt3].
  rewrite <- channel_gain_plain.
  apply Rmult_le_compat_l.
  - apply Hpos; assumption.
  - apply Rmax_r.
Qed.

Lemma safe_invert_gains_ge_plain_witness :
  tle3 (plain_invert_gains (constant_image 3 2 2 0.95) 1.25 2 1.5)
       (safe_invert_gains (constant_image 3 2 2 0.95) 1.25 2 1.5).
Proof.
  apply safe_invert_gains_ge_plain.
  - reflexivity.
  - intros i j k _ _ _. simpl. lra.
  - lra.
  - lra.
  - lra.
Defined.

(** At a fully saturated pixel the mask is 1 and the gain applied to
    channel [c] is the larger of 1 and the channel's gain. *)
Lemma highlight_mask_saturated (image : tensor3) (h w : nat) :
  dim0 image = 3%nat -> saturated image ->
  (h < dim1 image)%nat -> (w < dim2 image)%nat ->
  highlight_mask image h w = 1.
Proof.
  intros HC Hsat Hh Hw. unfold highlight_mask. rewrite HC. simpl.
  rewrite !Hsat by (try assumption; lia).
  unfold clamp_min, Rmax. destruct (Rle_dec _ _); lra.
Qed.

Lemma safe_invert_gains_saturated_elt (image : tensor3)
      (rgb_gain red_gain blue_gain : R) (c h w : nat) :
  dim0 image = 3%nat -> saturated image ->
  (c < 3)%nat -> (h < dim1 image)%nat -> (w < dim2 image)%nat ->
  elt3 (safe_invert_gains image rgb_gain red_gain blue_gain) c h w
  = Rmax 1 (channel_gain rgb_gain red_gain blue_gain c).
Proof.
  intros HC Hsat Hc Hh Hw.
  rewrite safe_invert_gains_elt by assumption.
  rewrite highlight_mask_saturated by assumption.
  rewrite Hsat by (try assumption; lia).
  set (g := channel_gain rgb_gain red_gain blue_gain c).
  replace (1 + (1.0 - 1) * g) with 1 by lra. lra.
Qed.

(** ** The gain sampler *)

Lemma div_le_one (a b : R) : 0 < b -> a <= b -> a / b <= 1.
Proof.
  intros Hb Hab. apply (Rmult_le_reg_r b); [exact Hb |].
  unfold Rdiv. rewrite Rmult_assoc, Rinv_l by lra. lra.
Qed.

Section Gain_sampler.

Context {G : Type} {rng : TorchRng G}.

Lemma random_gains_default_eq (g : G) :
  random_gains_default g
  = inr ((1.0 * (1.0 / normal_draw g), red_draw g, blue_draw g), after_gains g).
Proof.
  unfold random_gains_default, random_gains, bind, ret, draw_normal, draw_uniform,
    normal_draw, red_draw, blue_draw, after_gains.
  simpl.
  destruct (normal_sample 0.8 0.1 g) as [n g1]. simpl.
  destruct (uniform_ 1.9 2.4 g1) as [r g2]. simpl.
  destruct (uniform_ 1.5 1.9 g2) as [b g3]. reflexivity.
Qed.

Lemma red_draw_range (g : G) : 1.9 <= red_draw g <= 2.4.
Proof. unfold red_draw. apply uniform_range. lra. Qed.

Lemma blue_draw_range (g : G) : 1.5 <= blue_draw g <= 1.9.
Proof. unfold blue_draw. apply uniform_range. lra. Qed.

(** The channel gains of a sampled triple: the normal draw over the
    channel's white-balance gain. *)
Lemma sampled_channel_gain (n red blue : R) (c : nat) :
  n <> 0 -> 0 < red -> 0 < blue ->
  channel_gain (1.0 * (1.0 / n)) red blue c = nth c [n / red; n; n / blue] 0.
Proof.
  intros Hn Hr Hb. unfold channel_gain.
  replace 1.0 with 1 by lra.
  destruct c as [|[|[|c]]]; cbn [nth]; try (field; lra).
  destruct c; unfold Rdiv; ring.
Qed.

(** C1, as the code has it.  For every gain triple returned by
    [random_gains()] whose normal draw is nonzero and at most 1 (so that no
    channel's gain exceeds 1) and every three-channel image whose samples
    are all 1.0, [safe_invert_gains] returns the image unchanged. *)
Theorem safe_invert_gains_saturated_sampled (g : G) (image : tensor3) :
  normal_draw g <> 0 -> normal_draw g <= 1 ->
  dim0 image = 3%nat -> saturated image ->
  exists rgb_gain red_gain blue_gain g',
    random_gains_default g = inr ((rgb_gain, red_gain, blue_gain), g') /\
    teq3 (safe_invert_gains image rgb_gain red_gain blue_gain) image.
Proof.
  intros Hn0 Hn1 HC Hsat.
  exists (1.0 * (1.0 / normal_draw g)), (red_draw g), (blue_draw g), (after_gains g).
  split; [apply random_gains_default_eq |].
  destruct (safe_invert_gains_dims image (1.0 * (1.0 / normal_draw g))
              (red_draw g) (blue_draw g) HC) as (H0 & H1 & H2).
  split; [exact H0 | split; [exact H1 | split; [exact H2 |]]].
  rewrite H0, H1, H2. intros c h w Hc Hh Hw.
  rewrite safe_invert_gains_saturated_elt by (try assumption; lia).
  rewrite Hsat by assumption.
  pose proof (red_draw_range g) as Hr. pose proof (blue_draw_range g) as Hb.
  rewrite sampled_channel_gain by lra.
  assert (Hle : nth c [normal_draw g / red_draw g; normal_draw g;
                       normal_draw g / blue_draw g] 0 <= 1).
  { rewrite HC in Hc.
    assert (Hred : normal_draw g / red_draw g <= 1).
    { apply div_le_one; lra. }
    assert (Hblue : normal_draw g / blue_draw g <= 1).
    { apply div_le_one; lra. }
    destruct c as [|[|[|c]]]; simpl; try lra; lia. }
  rewrite Rmax_left by exact Hle. lra.
Qed.

(** C2, as the code has it.  For every outcome of the draws
    [random_gains()] returns a triple whose red gain lies in [1.9, 2.4] and
    whose blue gain lies in [1.5, 1.9]; its rgb gain is the reciprocal of
    the normal draw, positive when the draw is positive and negative when
    the draw is negative. *)
Theorem random_gains_default_ranges (g : G) :
  exists rgb_gain red_gain blue_gain g',
    random_gains_default g = inr ((rgb_gain, red_gain, blue_gain), g') /\
    1.9 <= red_gain <= 2.4 /\
    1.5 <= blue_gain <= 1.9 /\
    (0 < normal_draw g -> rgb_gain = / normal_draw g /\ 0 < rgb_gain) /\
    (normal_draw g < 0 -> rgb_gain = / normal_draw g /\ rgb_gain < 0).
Proof.
  exists (1.0 * (1.0 / normal_draw g)), (red_draw g), (blue_draw g), (after_gains g).
  split; [apply random_gains_default_eq |].
  split; [apply red_draw_range |].
  split; [apply blue_draw_range |].
  assert (Heq : 1.0 * (1.0 / normal_draw g) = / normal_draw g).
  { unfold Rdiv. lra. }
  rewrite Heq. split; intros Hn; (split; [reflexivity |]).
  - apply Rinv_0_lt_compat; exact Hn.
  - apply Rinv_lt_0_compat; exact Hn.
Qed.

End Gain_sampler.

Lemma safe_invert_gains_saturated_sampled_witness :
  exists rgb_gain red_gain blue_gain g',
    random_gains_default (G := list R) [0.8; 2; 1.6]
    = inr ((rgb_gain, red_gain, blue_gain), g') /\
    teq3 (safe_invert_gains (constant_image 3 2 2 1.0) rgb_gain red_gain blue_gain)
         (constant_image 3 2 2 1.0).
Proof.
  apply (safe_invert_gains_saturated_sampled (G := list R) [0.8; 2; 1.6]
           (constant_image 3 2 2 1.0)).
  - unfold normal_draw. simpl. lra.
  - unfold normal_draw. simpl. lra.
  - reflexivity.
  - intros c h w _ _ _. reflexivity.
Defined.

(** C1 as stated fails: a normal draw of 1.25 (rgb gain 0.8) with red gain 2
    and blue gain 1.6 turns the green sample of a saturated pixel into
    1.25. *)
Lemma safe_invert_gains_saturated_counterexample :
  random_gains_default (G := list R) [1.25; 2; 1.6]
  = inr ((1.0 * (1.0 / 1.25), Rmax 1.9 (Rmin 2 2.4), Rmax 1.5 (Rmin 1.6 1.9)), []) /\
  saturated (constant_image 3 1 1 1.0) /\
  elt3 (safe_invert_gains (constant_image 3 1 1 1.0)
          (1.0 * (1.0 / 1.25)) (Rmax 1.9 (Rmin 2 2.4)) (Rmax 1.5 (Rmin 1.6 1.9)))
       1 0 0 = 1.25 /\
  ~ teq3 (safe_invert_gains (constant_image 3 1 1 1.0)
            (1.0 * (1.0 / 1.25)) (Rmax 1.9 (Rmin 2 2.4)) (Rmax 1.5 (Rmin 1.6 1.9)))
         (constant_image 3 1 1 1.0).
Proof.
  assert (Hsat : saturated (constant_image 3 1 1 1.0)).
  { intros c h w _ _ _. reflexivity. }
  assert (Helt : elt3 (safe_invert_gains (constant_image 3 1 1 1.0)
                         (1.0 * (1.0 / 1.25)) (Rmax 1.9 (Rmin 2 2.4))
                         (Rmax 1.5 (Rmin 1.6 1.9))) 1 0 0 = 1.25).
  { rewrite safe_invert_gains_saturated_elt
      by (try exact Hsat; try reflexivity; simpl; lia).
    unfold channel_gain. simpl.
    replace (1.0 / (1.0 * (1.0 / 1.25))) with 1.25 by lra.
    unfold Rmax. destruct (Rle_dec 1 1.25); lra. }
  split; [reflexivity |].
  split; [exact Hsat |].
  split; [exact Helt |].
  intros (_ & _ & _ & Hall).
  specialize (Hall 1%nat 0%nat 0%nat).
  rewrite Helt in Hall. simpl in Hall.
  assert (Hbad : 1.25 = 1.0).
  { apply Hall; cbv; lia. }
  lra.
Qed.

(** C2 as stated fails: a normal draw of -0.05 gives an rgb gain of -20. *)
Lemma random_gains_default_counterexample :
  random_gains_default (G := list R) [-0.05; 2; 1.6]
  = inr ((1.0 * (1.0 / -0.05), Rmax 1.9 (Rmin 2 2.4), Rmax 1.5 (Rmin 1.6 1.9)), []) /\
  1.0 * (1.0 / -0.05) = -20 /\
  ~ (1.0 * (1.0 / -0.05) > 0).
Proof.
  split; [reflexivity |]. split; lra.
Qed.

(** ** The colour-matrix sampler *)

Lemma ccm_of_weights_eq (ws : list R) :
  ccm_of_weights ws
  = zip2 Rdiv (rgb2cam_unnormalised ws) (sum_last_keepdim (rgb2cam_unnormalised ws)).
Proof. reflexivity. Qed.

(** Dividing each row of a three-column matrix by its sum makes the row
    sum to 1, when that sum is not zero. *)
Lemma row_normalised_sum (m : tensor2) (i : nat) :
  cols m = 3%nat -> (i < rows m)%nat ->
  rsum 3 (fun j => elt2 m i j) <> 0 ->
  rsum 3 (fun j => elt2 (zip2 Rdiv m (sum_last_keepdim m)) i j) = 1.
Proof.
  intros Hc Hi Hs. destruct m as [r c f]. simpl in *. subst c.
  unfold bget2. simpl. rewrite (bidx_lt r i) by assumption.
  rewrite !(bidx_lt 3) by lia. simpl in Hs. field. intros Hz. apply Hs. lra.
Qed.

(** With positive weights every row of the unnormalised matrix has a
    positive sum. *)
Lemma rgb2cam_unnormalised_row_pos (w0 w1 w2 w3 : R) (i : nat) :
  0 < w0 -> 0 < w1 -> 0 < w2 -> 0 < w3 -> (i < 3)%nat ->
  0 < rsum 3 (fun j => elt2 (rgb2cam_unnormalised [w0; w1; w2; w3]) i j).
Proof.
  intros H0 H1 H2 H3 Hi.
  assert (HW : 0 < / (0 + w0 + w1 + w2 + w3)) by (apply Rinv_0_lt_compat; lra).
  destruct i as [|[|[|i]]]; [| | | lia];
    cbn -[Rmult Rplus Rdiv IZR Rinv]; unfold Rdiv;
    set (iW := / (0 + w0 + w1 + w2 + w3)) in *;
    assert (P0 : 0 < iW * w0) by (apply Rmult_lt_0_compat; assumption);
    assert (P1 : 0 < iW * w1) by (apply Rmult_lt_0_compat; assumption);
    assert (P2 : 0 < iW * w2) by (apply Rmult_lt_0_compat; assumption);
    assert (P3 : 0 < iW * w3) by (apply Rmult_lt_0_compat; assumption);
    nra.
Qed.

Section Ccm_sampler.

Context {G : Type} {rng : TorchRng G}.

(** [n] uniform draws always succeed, give [n] values, each in range. *)
Lemma uniform_fill_range (n : nat) (lo hi : R) (g : G) :
  lo <= hi ->
  exists ws g', uniform_fill n lo hi g = inr (ws, g') /\
                length ws = n /\ Forall (fun w => lo <= w <= hi) ws.
Proof.
  intros Hle. revert g. induction n as [|n IH]; intros g.
  - exists [], g. simpl. repeat split. constructor.
  - simpl. unfold bind at 1. unfold draw_uniform.
    pose proof (uniform_range lo hi g Hle) as Hw.
    destruct (uniform_ lo hi g) as [w g1]. simpl in Hw.
    destruct (IH g1) as (ws & g' & Hfill & Hlen & Hall).
    exists (w :: ws), g'. unfold bind. rewrite Hfill. unfold ret.
    repeat split.
    + simpl. congruence.
    + constructor; assumption.
Qed.

(** C8. For every outcome of the weight draws, [random_ccm] returns a 3x3
    matrix each of whose rows sums to 1 (exactly, over the reals). *)
Theorem random_ccm_rows_sum_to_one (g : G) :
  exists m g', random_ccm g = inr (m, g') /\
               rows m = 3%nat /\ cols m = 3%nat /\
               forall i, (i < 3)%nat -> rsum 3 (fun j => elt2 m i j) = 1.
Proof.
  assert (Hle : 1e-8 <= 1e8) by lra.
  destruct (uniform_fill_range (length xyz2cams) 1e-8 1e8 g Hle)
    as (ws & g' & Hfill & Hlen & Hall).
  exists (ccm_of_weights ws), g'.
  split; [unfold random_ccm, bind; rewrite Hfill; reflexivity |].
  simpl in Hlen.
  destruct ws as [|w0 [|w1 [|w2 [|w3 [|w4 ws]]]]]; try discriminate Hlen.
  split; [reflexivity |]. split; [reflexivity |].
  intros i Hi.
  inversion Hall as [|? ? A0 Hall1]; subst.
  inversion Hall1 as [|? ? A1 Hall2]; subst.
  inversion Hall2 as [|? ? A2 Hall3]; subst.
  inversion Hall3 as [|? ? A3 _]; subst.
  rewrite ccm_of_weights_eq.
  apply row_normalised_sum; [reflexivity | exact Hi |].
  apply Rgt_not_eq. apply Rlt_gt.
  apply rgb2cam_unnormalised_row_pos; try assumption; lra.
Qed.

End Ccm_sampler.

(** ** The mosaic stage *)

(** Reading a row-major index back into its three coordinates. *)
Lemma flat_index_split (b c i j k : nat) :
  (j < b)%nat -> (k < c)%nat ->
  (((i * b + j) * c + k) / (b * c) = i /\
   (((i * b + j) * c + k) / c) mod b = j /\
   ((i * b + j) * c + k) mod c = k)%nat.
Proof.
  intros Hj Hk.
  assert (Hdiv : (((i * b + j) * c + k) / c = i * b + j)%nat).
  { symmetry. apply (Nat.div_unique _ c _ k); [exact Hk | lia]. }
  split; [| split].
  - symmetry. apply (Nat.div_unique _ (b * c) _ (j * c + k)); nia.
  - rewrite Hdiv. symmetry. apply (Nat.mod_unique _ b i j); [exact Hj | lia].
  - symmetry. apply (Nat.mod_unique _ c (i * b + j) k); [exact Hk | lia].
Qed.

(** Reshaping a tensor to its own size leaves it as it is. *)
Lemma reshape3_same (t : tensor3) :
  teq3 (reshape3 t (dim0 t) (dim1 t) (dim2 t)) t.
Proof.
  unfold teq3. simpl. repeat split; try reflexivity.
  intros i j k _ Hj Hk. unfold flat3.
  destruct (flat_index_split (dim1 t) (dim2 t) i j k Hj Hk) as (E0 & E1 & E2).
  rewrite E0, E1, E2. reflexivity.
Qed.

(** The lengths of the two strided slices of an axis. *)
Lemma slice_len_even (n : nat) :
  Nat.even n = true -> ((n - 0 + 1) / 2 = n / 2 /\ (n - 1 + 1) / 2 = n / 2)%nat.
Proof.
  intros He. apply Nat.even_spec in He. destruct He as [m ->].
  assert (Hm : (2 * m / 2 = m)%nat) by (rewrite Nat.mul_comm; apply Nat.div_mul; lia).
  rewrite Hm. split.
  - symmetry. apply (Nat.div_unique _ 2 _ 1); lia.
  - destruct m as [|m]; [reflexivity |].
    replace (2 * S m - 1 + 1)%nat with (2 * S m)%nat by lia. exact Hm.
Qed.

Lemma slice_len_odd (n : nat) :
  Nat.odd n = true -> ((n - 0 + 1) / 2 <> (n - 1 + 1) / 2)%nat.
Proof.
  intros Ho. apply Nat.odd_spec in Ho. destruct Ho as [m ->].
  replace (2 * m + 1 - 0 + 1)%nat with ((m + 1) * 2)%nat by lia.
  replace (2 * m + 1 - 1 + 1)%nat with (2 * m + 1)%nat by lia.
  rewrite Nat.div_mul by lia.
  rewrite <- (Nat.div_unique (2 * m + 1) 2 m 1) by lia. lia.
Qed.

(** On even sizes the four planes have one size and the mosaic is the
    stack of the planes. *)
Lemma mosaic_even (image : tensor3) :
  Nat.even (dim1 image) = true -> Nat.even (dim2 image) = true ->
  exists out, mosaic image = inr out /\
    dim0 out = 4%nat /\ dim1 out = (dim1 image / 2)%nat /\
    dim2 out = (dim2 image / 2)%nat /\
    forall c i j, (c < 4)%nat -> (i < dim1 image / 2)%nat -> (j < dim2 image / 2)%nat ->
      elt3 out c i j
      = elt3 image (nth c [0; 1; 1; 2] 0)%nat
             (nth c [0; 0; 1; 1] 0 + 2 * i)%nat (nth c [0; 1; 0; 1] 0 + 2 * j)%nat.
Proof.
  intros HeH HeW.
  destruct (slice_len_even _ HeH) as [H0 H1].
  destruct (slice_len_even _ HeW) as [W0 W1].
  unfold mosaic, stack_last, same_size2. cbn -[Nat.div Nat.modulo Nat.sub Nat.add Nat.mul].
  rewrite H0, H1, W0, W1, !Nat.eqb_refl. cbn -[Nat.div Nat.modulo Nat.sub Nat.add Nat.mul].
  eexists. split; [reflexivity |].
  cbn -[Nat.div Nat.modulo Nat.sub Nat.add Nat.mul].
  repeat split.
  intros c i j Hc Hi Hj. unfold flat3. cbn -[Nat.div Nat.modulo Nat.sub Nat.add Nat.mul].
  destruct (flat_index_split (dim2 image / 2) 4 i j c Hj Hc) as (E0 & E1 & E2).
  rewrite E0, E1, E2.
  destruct c as [|[|[|[|c]]]]; try lia; reflexivity.
Qed.

(** On an odd height or width the planes differ in size and [torch.stack]
    raises. *)
Lemma mosaic_odd (image : tensor3) :
  Nat.odd (dim1 image) = true \/ Nat.odd (dim2 image) = true ->
  mosaic image = inl StackSizeMismatch.
Proof.
  intros Hodd. unfold mosaic, stack_last, same_size2.
  cbn -[Nat.div Nat.modulo Nat.sub Nat.add Nat.mul].
  destruct Hodd as [Ho | Ho]; apply slice_len_odd in Ho.
  - apply Nat.eqb_neq in Ho. rewrite Ho.
    repeat (rewrite andb_false_l || rewrite andb_false_r). reflexivity.
  - apply Nat.eqb_neq in Ho. rewrite Ho.
    repeat (rewrite andb_false_l || rewrite andb_false_r). reflexivity.
Qed.

(** ** Invertibility of the sampled colour matrix *)

Lemma det3_mm (a b : tensor2) :
  cols a = 3%nat -> det3 (mm a b) = det3 a * det3 b.
Proof.
  intros Hc. destruct a as [ra ca fa], b as [rb cb fb]. simpl in Hc. subst ca.
  unfold det3. simpl. ring.
Qed.

(** Dividing a 3x3 matrix by a one-sample tensor. *)
Lemma det3_div_scalar (x s : tensor2) :
  rows x = 3%nat -> cols x = 3%nat -> rows s = 1%nat -> cols s = 1%nat ->
  det3 (zip2 Rdiv x s) = det3 x * (/ elt2 s 0 0) ^ 3.
Proof.
  intros Hr Hc Hsr Hsc. destruct x as [rx cx fx], s as [rs cs fs].
  simpl in *. subst. unfold det3, Rdiv. simpl. unfold bget2, bidx. simpl. ring.
Qed.

(** Dividing each row of a 3x3 matrix by the row's sum. *)
Lemma det3_row_normalised (m : tensor2) :
  rows m = 3%nat -> cols m = 3%nat ->
  det3 (zip2 Rdiv m (sum_last_keepdim m))
  = det3 m * (/ rsum 3 (fun j => elt2 m 0 j) * / rsum 3 (fun j => elt2 m 1 j)
              * / rsum 3 (fun j => elt2 m 2 j)).
Proof.
  intros Hr Hc. destruct m as [r c f]. simpl in *. subst.
  unfold det3, Rdiv. simpl. unfold bget2, bidx. simpl. ring.
Qed.

Lemma det3_rgb2xyz_pos : 0 < det3 (of_list2 rgb2xyz).
Proof. unfold det3. cbn -[Rmult Rplus Rdiv IZR Rinv Rminus]. lra. Qed.

(** The determinant of a positive combination of the four reference
    matrices is positive: it is a cubic in the weights all of whose
    coefficients are positive. *)
Lemma det3_weighted_sum_pos (w0 w1 w2 w3 : R) :
  0 < w0 -> 0 < w1 -> 0 < w2 -> 0 < w3 ->
  0 < det3 (sum_dim0 (zip3 Rmult (of_list3 xyz2cams)
                            (mk3 4 1 1 (fun i _ _ => nth i [w0; w1; w2; w3] 0)))).
Proof.
  intros H0 H1 H2 H3.
  unfold det3. cbn -[Rmult Rplus Rdiv IZR Rinv Rminus].
  assert (M000 : 0 < w0 * w0 * w0) by (repeat apply Rmult_lt_0_compat; assumption).
  assert (M001 : 0 < w0 * w0 * w1) by (repeat apply Rmult_lt_0_compat; assumption).
  assert (M002 : 0 < w0 * w0 * w2) by (repeat apply Rmult_lt_0_compat; assumption).
  assert (M003 : 0 < w0 * w0 * w3) by (repeat apply Rmult_lt_0_compat; assumption).
  assert (M011 : 0 < w0 * w1 * w1) by (repeat apply Rmult_lt_0_compat; assumption).
  assert (M012 : 0 < w0 * w1 * w2) by (repeat apply Rmult_lt_0_compat; assumption).
  assert (M013 : 0 < w0 * w1 * w3) by (repeat apply Rmult_lt_0_compat; assumption).
  assert (M022 : 0 < w0 * w2 * w2) by (repeat apply Rmult_lt_0_compat; assumption).
  assert (M023 : 0 < w0 * w2 * w3) by (repeat apply Rmult_lt_0_compat; assumption).
  assert (M033 : 0 < w0 * w3 * w3) by (repeat apply Rmult_lt_0_compat; assumption).
  assert (M111 : 0 < w1 * w1 * w1) by (repeat apply Rmult_lt_0_compat; assumption).
  assert (M112 : 0 < w1 * w1 * w2) by (repeat apply Rmult_lt_0_compat; assumption).
  assert (M113 : 0 < w1 * w1 * w3) by (repeat apply Rmult_lt_0_compat; assumption).
  assert (M122 : 0 < w1 * w2 * w2) by (repeat apply Rmult_lt_0_compat; assumption).
  assert (M123 : 0 < w1 * w2 * w3) by (repeat apply Rmult_lt_0_compat; assumption).
  assert (M133 : 0 < w1 * w3 * w3) by (repeat apply Rmult_lt_0_compat; assumption).
  assert (M222 : 0 < w2 * w2 * w2) by (repeat apply Rmult_lt_0_compat; assumption).
  assert (M223 : 0 < w2 * w2 * w3) by (repeat apply Rmult_lt_0_compat; assumption).
  assert (M233 : 0 < w2 * w3 * w3) by (repeat apply Rmult_lt_0_compat; assumption).
  assert (M333 : 0 < w3 * w3 * w3) by (repeat apply Rmult_lt_0_compat; assumption).
  lra.
Qed.

(** With positive weights the sampled matrix has a positive determinant. *)
Lemma det3_ccm_of_weights_pos (w0 w1 w2 w3 : R) :
  0 < w0 -> 0 < w1 -> 0 < w2 -> 0 < w3 ->
  0 < det3 (ccm_of_weights [w0; w1; w2; w3]).
Proof.
  intros H0 H1 H2 H3.
  rewrite ccm_of_weights_eq.
  rewrite det3_row_normalised by reflexivity.
  pose proof (rgb2cam_unnormalised_row_pos w0 w1 w2 w3 0 H0 H1 H2 H3 ltac:(lia)) as S0.
  pose proof (rgb2cam_unnormalised_row_pos w0 w1 w2 w3 1 H0 H1 H2 H3 ltac:(lia)) as S1.
  pose proof (rgb2cam_unnormalised_row_pos w0 w1 w2 w3 2 H0 H1 H2 H3 ltac:(lia)) as S2.
  apply Rmult_lt_0_compat.
  - unfold rgb2cam_unnormalised.
    rewrite det3_mm by reflexivity.
    rewrite det3_div_scalar by reflexivity.
    apply Rmult_lt_0_compat; [| exact det3_rgb2xyz_pos].
    apply Rmult_lt_0_compat; [apply det3_weighted_sum_pos; assumption |].
    apply pow_lt. apply Rinv_0_lt_compat. simpl. lra.
  - repeat apply Rmult_lt_0_compat; apply Rinv_0_lt_compat; assumption.
Qed.

(** [torch.inverse] is the inverse: on a 3x3 matrix with nonzero
    determinant the product with the result is the identity. *)
Lemma inverse_right (m : tensor2) :
  det3 m <> 0 ->
  exists inv, inverse m = inr inv /\
    forall i j, (i < 3)%nat -> (j < 3)%nat ->
      rsum 3 (fun k => elt2 m i k * elt2 inv k j) = if Nat.eqb i j then 1 else 0.
Proof.
  intros Hd. unfold inverse. destruct (Req_dec_T (det3 m) 0) as [Hz | _]; [contradiction |].
  eexists. split; [reflexivity |].
  intros i j Hi Hj. unfold cofactor3, det3 in *.
  destruct i as [|[|[|i]]]; try lia; destruct j as [|[|[|j]]]; try lia;
    simpl; field; exact Hd.
Qed.

Section Ccm_invertible.

Context {G : Type} {rng : TorchRng G}.

(** [random_ccm] followed by [torch.inverse] never raises. *)
Lemma random_ccm_invertible (g : G) :
  exists m cam g', random_ccm g = inr (m, g') /\ inverse m = inr cam.
Proof.
  assert (Hle : 1e-8 <= 1e8) by lra.
  destruct (uniform_fill_range (length xyz2cams) 1e-8 1e8 g Hle)
    as (ws & g' & Hfill & Hlen & Hall).
  simpl in Hlen.
  destruct ws as [|w0 [|w1 [|w2 [|w3 [|w4 ws]]]]]; try discriminate Hlen.
  inversion Hall as [|? ? A0 Hall1]; subst.
  inversion Hall1 as [|? ? A1 Hall2]; subst.
  inversion Hall2 as [|? ? A2 Hall3]; subst.
  inversion Hall3 as [|? ? A3 _]; subst.
  assert (Hdet : det3 (ccm_of_weights [w0; w1; w2; w3]) <> 0).
  { apply Rgt_not_eq. apply Rlt_gt. apply det3_ccm_of_weights_pos; lra. }
  destruct (inverse_right _ Hdet) as (cam & Hinv & _).
  exists (ccm_of_weights [w0; w1; w2; w3]), cam, g'.
  split; [unfold random_ccm, bind; rewrite Hfill; reflexivity | exact Hinv].
Qed.

End Ccm_invertible.

(** ** The colour-matrix stage *)

(** On a three-channel image and a matrix of three rows, [apply_ccm] sends
    each pixel to the product of the matrix with the pixel's colour. *)
Lemma apply_ccm_elt (image : tensor3) (ccm : tensor2) (c h w : nat) :
  dim0 image = 3%nat -> rows ccm = 3%nat ->
  (c < 3)%nat -> (h < dim1 image)%nat -> (w < dim2 image)%nat ->
  elt3 (apply_ccm image ccm) c h w
  = rsum 3 (fun k => elt3 image k h w * elt2 ccm c k).
Proof.
  intros HC HR Hc Hh Hw.
  destruct image as [C H W f], ccm as [r n m]. simpl in *. subst C r.
  unfold flat2, flat3. cbn -[Nat.div Nat.modulo Nat.mul Nat.add].
  assert (Hrow : (((h * W + w) * 3 + c) / 3 = h * W + w)%nat).
  { symmetry. apply (Nat.div_unique _ 3 _ c); lia. }
  assert (Hcol : (((h * W + w) * 3 + c) mod 3 = c)%nat).
  { symmetry. apply (Nat.mod_unique _ 3 (h * W + w) c); lia. }
  rewrite Hrow, Hcol.
  destruct (flat_index_split W 3 h w 0 Hw ltac:(lia)) as (A0 & B0 & C0).
  destruct (flat_index_split W 3 h w 1 Hw ltac:(lia)) as (A1 & B1 & C1).
  destruct (flat_index_split W 3 h w 2 Hw ltac:(lia)) as (A2 & B2 & C2).
  rewrite A0, B0, C0, A1, B1, C1, A2, B2, C2. reflexivity.
Qed.

(** C3. For every channel-first image of shape (3, H, W) with H and W even,
    [mosaic] returns an array of shape (4, H/2, W/2) whose planes are: red
    from the even rows and even columns of channel 0, green-red from the
    even rows and odd columns of channel 1, green-blue from the odd rows and
    even columns of channel 1, blue from the odd rows and odd columns of
    channel 2; in particular at cell (0,0) the four samples are
    image[0,0,0], image[1,0,1], image[1,1,0] and image[2,1,1]. *)
Theorem mosaic_bayer_planes (image : tensor3) :
  dim0 image = 3%nat ->
  Nat.even (dim1 image) = true -> Nat.even (dim2 image) = true ->
  exists out, mosaic image = inr out /\
    dim0 out = 4%nat /\
    dim1 out = (dim1 image / 2)%nat /\
    dim2 out = (dim2 image / 2)%nat /\
    (forall i j, (i < dim1 image / 2)%nat -> (j < dim2 image / 2)%nat ->
       elt3 out 0 i j = elt3 image 0 (2 * i) (2 * j) /\
       elt3 out 1 i j = elt3 image 1 (2 * i) (2 * j + 1) /\
       elt3 out 2 i j = elt3 image 1 (2 * i + 1) (2 * j) /\
       elt3 out 3 i j = elt3 image 2 (2 * i + 1) (2 * j + 1)) /\
    ((0 < dim1 image / 2)%nat -> (0 < dim2 image / 2)%nat ->
       elt3 out 0 0 0 = elt3 image 0 0 0 /\
       elt3 out 1 0 0 = elt3 image 1 0 1 /\
       elt3 out 2 0 0 = elt3 image 1 1 0 /\
       elt3 out 3 0 0 = elt3 image 2 1 1).
Proof.
  intros _ HeH HeW.
  destruct (mosaic_even image HeH HeW) as (out & Hm & D0 & D1 & D2 & Helt).
  exists out. split; [exact Hm |].
  split; [exact D0 |]. split; [exact D1 |]. split; [exact D2 |].
  assert (Hplanes : forall i j, (i < dim1 image / 2)%nat -> (j < dim2 image / 2)%nat ->
       elt3 out 0 i j = elt3 image 0 (2 * i) (2 * j) /\
       elt3 out 1 i j = elt3 image 1 (2 * i) (2 * j + 1) /\
       elt3 out 2 i j = elt3 image 1 (2 * i + 1) (2 * j) /\
       elt3 out 3 i j = elt3 image 2 (2 * i + 1) (2 * j + 1)).
  { intros i j Hi Hj.
    repeat split; rewrite Helt by (try assumption; lia);
      cbn [nth]; f_equal; lia. }
  split; [exact Hplanes |].
  intros HH HW. exact (Hplanes 0%nat 0%nat HH HW).
Qed.

Lemma mosaic_bayer_planes_witness :
  exists out, mosaic ramp_image = inr out /\
    dim0 out = 4%nat /\
    dim1 out = (dim1 ramp_image / 2)%nat /\
    dim2 out = (dim2 ramp_image / 2)%nat /\
    (forall i j, (i < dim1 ramp_image / 2)%nat -> (j < dim2 ramp_image / 2)%nat ->
       elt3 out 0 i j = elt3 ramp_image 0 (2 * i) (2 * j) /\
       elt3 out 1 i j = elt3 ramp_image 1 (2 * i) (2 * j + 1) /\
       elt3 out 2 i j = elt3 ramp_image 1 (2 * i + 1) (2 * j) /\
       elt3 out 3 i j = elt3 ramp_image 2 (2 * i + 1) (2 * j + 1)) /\
    ((0 < dim1 ramp_image / 2)%nat -> (0 < dim2 ramp_image / 2)%nat ->
       elt3 out 0 0 0 = elt3 ramp_image 0 0 0 /\
       elt3 out 1 0 0 = elt3 ramp_image 1 0 1 /\
       elt3 out 2 0 0 = elt3 ramp_image 1 1 0 /\
       elt3 out 3 0 0 = elt3 ramp_image 2 1 1).
Proof.
  apply (mosaic_bayer_planes ramp_image); reflexivity.
Defined.

(** ** The entry points *)

Lemma colour_chain_dims (image : tensor3) (m : tensor2) (rgb_gain red_gain blue_gain : R) :
  dim0 image = 3%nat ->
  dim0 (colour_chain image m rgb_gain red_gain blue_gain) = 3%nat /\
  dim1 (colour_chain image m rgb_gain red_gain blue_gain) = dim1 image /\
  dim2 (colour_chain image m rgb_gain red_gain blue_gain) = dim2 image.
Proof.
  intros HC. unfold colour_chain.
  assert (HC' : dim0 (apply_ccm (gamma_expansion (inverse_smoothstep image)) m) = 3%nat)
    by exact HC.
  destruct (safe_invert_gains_dims _ rgb_gain red_gain blue_gain HC') as (E0 & E1 & E2).
  cbn [tmap dim0 dim1 dim2]. rewrite E0, E1, E2. repeat split; assumption.
Qed.

Section Entry_point_facts.

Context {G : Type} {rng : TorchRng G}.

(** What the two sampling entry points return, in terms of the draws. *)
Lemma entry_points_eq (image : tensor3) (g : G) :
  exists m cam g1,
    random_ccm g = inr (m, g1) /\ inverse m = inr cam /\
    let gt := colour_chain image m (1.0 * (1.0 / normal_draw g1))
                           (red_draw g1) (blue_draw g1) in
    let meta := mk_metadata cam m (1.0 * (1.0 / normal_draw g1))
                            (red_draw g1) (blue_draw g1) in
    unprocess_gt image g = inr ((gt, meta), after_gains g1) /\
    unprocess image g = match mosaic gt with
                        | inl e => inl e
                        | inr out => inr ((out, meta), after_gains g1)
                        end.
Proof.
  destruct (random_ccm_invertible g) as (m & cam & g1 & Hccm & Hinv).
  exists m, cam, g1. split; [exact Hccm |]. split; [exact Hinv |].
  cbv zeta. unfold unprocess_gt, unprocess, bind, lift, ret.
  rewrite Hccm. cbv beta iota. rewrite Hinv. cbv beta iota.
  rewrite (random_gains_default_eq g1). cbv beta iota.
  fold (colour_chain image m (1.0 * (1.0 / normal_draw g1)) (red_draw g1) (blue_draw g1)).
  split; [reflexivity |].
  destruct (mosaic _) as [e | out]; reflexivity.
Qed.

(** C4. For every image and every outcome of the sampling, [unprocess] is
    [unprocess_gt] followed by [mosaic] on the image: the two run the same
    chain on the same draws and return the same metadata record, and the
    image of [unprocess] is the mosaic of the image of [unprocess_gt]. *)
Theorem unprocess_is_mosaic_of_unprocess_gt (image : tensor3) (g : G) :
  unprocess image g
  = (r <- unprocess_gt image ;;
     out <- lift (mosaic (fst r)) ;;
     ret (out, snd r)) g.
Proof.
  unfold unprocess, unprocess_gt, bind, lift, ret.
  destruct (random_ccm g) as [e | [m g1]]; [reflexivity |].
  destruct (inverse m) as [e | cam]; [reflexivity |].
  rewrite (random_gains_default_eq g1). cbv beta iota. cbn [fst snd].
  destruct (mosaic _) as [e | out]; reflexivity.
Qed.

(** C5. [unprocess_meta_gt] does not read the generator: whatever the
    generator states of two calls with the same arguments, both return the
    same image and the same metadata, and each leaves its generator as it
    found it. *)
Theorem unprocess_meta_gt_deterministic
        (image : tensor3) (rgb_gains red_gains blue_gains : R)
        (rgb2cam cam2rgb : tensor2) (g1 g2 : G) :
  exists out meta,
    unprocess_meta_gt image rgb_gains red_gains blue_gains rgb2cam cam2rgb g1
    = inr ((out, meta), g1) /\
    unprocess_meta_gt image rgb_gains red_gains blue_gains rgb2cam cam2rgb g2
    = inr ((out, meta), g2).
Proof.
  eexists. eexists. split; reflexivity.
Qed.

(** An image of odd height or width goes through every stage before the
    mosaic, and the mosaic raises on what they return. *)
Lemma odd_size_entry_points (image : tensor3) (g : G) :
  dim0 image = 3%nat ->
  Nat.odd (dim1 image) = true \/ Nat.odd (dim2 image) = true ->
  exists gt meta g',
    unprocess_gt image g = inr ((gt, meta), g') /\
    dim1 gt = dim1 image /\ dim2 gt = dim2 image /\
    mosaic gt = inl StackSizeMismatch /\
    unprocess image g = inl StackSizeMismatch.
Proof.
  intros HC Hodd.
  destruct (entry_points_eq image g) as (m & cam & g1 & _ & _ & Hgt & Hun).
  cbv zeta in Hgt, Hun.
  destruct (colour_chain_dims image m (1.0 * (1.0 / normal_draw g1))
              (red_draw g1) (blue_draw g1) HC) as (_ & E1 & E2).
  assert (Hmos : mosaic (colour_chain image m (1.0 * (1.0 / normal_draw g1))
                           (red_draw g1) (blue_draw g1)) = inl StackSizeMismatch).
  { apply mosaic_odd. rewrite E1, E2. exact Hodd. }
  eexists. eexists. eexists.
  split; [exact Hgt |]. split; [exact E1 |]. split; [exact E2 |].
  split; [exact Hmos |]. rewrite Hun, Hmos. reflexivity.
Qed.

(** C6, as the code has it.  For every three-channel image whose height
    or width is odd, no stage before the mosaic rejects the image
    ([unprocess_gt], the pipeline without the mosaic, returns normally);
    the mosaic stage itself raises the size mismatch of [torch.stack] on
    the image those stages produce, and [unprocess] ends with that
    error. *)
Theorem odd_size_raises_inside_mosaic (image : tensor3) (g : G) :
  dim0 image = 3%nat ->
  Nat.odd (dim1 image) = true \/ Nat.odd (dim2 image) = true ->
  exists gt meta g',
    unprocess_gt image g = inr ((gt, meta), g') /\
    mosaic gt = inl StackSizeMismatch /\
    unprocess image g = inl StackSizeMismatch.
Proof.
  intros HC Hodd.
  destruct (odd_size_entry_points image g HC Hodd)
    as (gt & meta & g' & Hgt & _ & _ & Hmos & Hun).
  exists gt, meta, g'. repeat split; assumption.
Qed.

End Entry_point_facts.

Lemma odd_size_raises_inside_mosaic_witness :
  exists gt meta g',
    unprocess_gt (G := list R) (constant_image 3 3 2 0.5) [] = inr ((gt, meta), g') /\
    mosaic gt = inl StackSizeMismatch /\
    unprocess (G := list R) (constant_image 3 3 2 0.5) [] = inl StackSizeMismatch.
Proof.
  apply (odd_size_raises_inside_mosaic (G := list R) (constant_image 3 3 2 0.5) []).
  - reflexivity.
  - left. reflexivity.
Defined.

(** C6 as stated fails: a 3x1x1 image, of odd height and width, is not
    rejected before the mosaic: every stage before it returns (so
    [unprocess_gt] returns an image of that odd size), and the error of
    [unprocess] is the one [torch.stack] raises inside [mosaic]. *)
Lemma odd_size_not_rejected_before_mosaic :
  Nat.odd (dim1 (constant_image 3 1 1 0.5)) = true /\
  Nat.odd (dim2 (constant_image 3 1 1 0.5)) = true /\
  exists gt meta g',
    unprocess_gt (G := list R) (constant_image 3 1 1 0.5) [] = inr ((gt, meta), g') /\
    dim1 gt = 1%nat /\ dim2 gt = 1%nat /\
    mosaic gt = inl StackSizeMismatch /\
    unprocess (G := list R) (constant_image 3 1 1 0.5) [] = inl StackSizeMismatch.
Proof.
  split; [reflexivity |]. split; [reflexivity |].
  apply (odd_size_entry_points (G := list R) (constant_image 3 1 1 0.5) []).
  - reflexivity.
  - left. reflexivity.
Qed.

(** * Further properties of the pipeline *)

(** ** The tone stage, continued *)

Lemma asin_le_PI6 (s : R) : -1 <= s <= 1 -> s <= 1 / 2 -> asin s <= PI / 6.
Proof.
  intros Hs Hle. pose proof (asin_bound s) as [Hlo Hhi]. pose proof PI_RGT_0 as Hpi.
  apply sin_incr_0; try lra.
  rewrite sin_asin by exact Hs. rewrite sin_PI6. exact Hle.
Qed.

Lemma asin_ge_opp_PI6 (s : R) : -1 <= s <= 1 -> - (1 / 2) <= s -> - (PI / 6) <= asin s.
Proof.
  intros Hs Hle. pose proof (asin_bound s) as [Hlo Hhi]. pose proof PI_RGT_0 as Hpi.
  apply sin_incr_0; try lra.
  rewrite sin_asin by exact Hs. rewrite sin_neg, sin_PI6. exact Hle.
Qed.

Lemma asin_incr (a b : R) : -1 <= a <= 1 -> -1 <= b <= 1 -> a <= b -> asin a <= asin b.
Proof.
  intros Ha Hb Hab.
  pose proof (asin_bound a) as [A0 A1]. pose proof (asin_bound b) as [B0 B1].
  apply sin_incr_0; try assumption.
  rewrite !sin_asin by assumption. exact Hab.
Qed.

Lemma smoothstep_unit_range (x : R) : 0 <= x <= 1 -> 0 <= smoothstep x <= 1.
Proof.
  intros Hx. unfold smoothstep.
  assert (Hlo : 0 <= x * x * (3 - 2 * x)) by (apply Rmult_le_pos; nra).
  assert (Hhi : 0 <= (1 - x) * (1 - x) * (1 + 2 * x)) by (apply Rmult_le_pos; nra).
  split; nra.
Qed.

(** The tone inverse undoes the forward curve on [0,1]. *)
Lemma tone_inverse_smoothstep (x : R) :
  0 <= x <= 1 ->
  0.5 - sin (asin (1.0 - 2.0 * smoothstep x) / 3.0) = x.
Proof.
  intros Hx. pose proof PI_RGT_0 as Hpi.
  set (s := 1 / 2 - x).
  assert (Hs : - (1 / 2) <= s <= 1 / 2) by (unfold s; lra).
  assert (Hs1 : -1 <= s <= 1) by lra.
  pose proof (asin_le_PI6 s Hs1 (proj2 Hs)) as Hup.
  pose proof (asin_ge_opp_PI6 s Hs1 (proj1 Hs)) as Hdn.
  assert (Harg : 1.0 - 2.0 * smoothstep x = sin (3 * asin s)).
  { rewrite sin_3a, sin_asin by exact Hs1. unfold smoothstep, s. nra. }
  rewrite Harg, asin_sin by lra.
  replace (3 * asin s / 3.0) with (asin s) by lra.
  rewrite sin_asin by exact Hs1. unfold s. lra.
Qed.

(** The tone inverse does not decrease when the sample grows. *)
Lemma tone_inverse_incr (y1 y2 : R) :
  0 <= y1 <= 1 -> 0 <= y2 <= 1 -> y1 <= y2 ->
  0.5 - sin (asin (1.0 - 2.0 * y1) / 3.0) <= 0.5 - sin (asin (1.0 - 2.0 * y2) / 3.0).
Proof.
  intros H1 H2 Hle. pose proof PI_RGT_0 as Hpi.
  pose proof (asin_bound (1.0 - 2.0 * y1)) as [A0 A1].
  pose proof (asin_bound (1.0 - 2.0 * y2)) as [B0 B1].
  assert (Hasin : asin (1.0 - 2.0 * y2) <= asin (1.0 - 2.0 * y1))
    by (apply asin_incr; lra).
  assert (Hsin : sin (asin (1.0 - 2.0 * y2) / 3.0) <= sin (asin (1.0 - 2.0 * y1) / 3.0))
    by (apply sin_incr_1; lra).
  lra.
Qed.

Lemma clamp_unit_incr (a b : R) : a <= b -> clamp 0.0 1.0 a <= clamp 0.0 1.0 b.
Proof.
  intros Hab. unfold clamp, Rmin, Rmax.
  repeat (destruct (Rle_dec _ _)); lra.
Qed.

(** X1. [inverse_smoothstep] is also a left inverse of the forward tone
    curve: on an image whose samples lie in [0,1], applying 3x^2 - 2x^3 to
    every sample and then [inverse_smoothstep] gives back the image. *)
Theorem inverse_smoothstep_of_smoothstep (image : tensor3) :
  samples_in 0 1 image ->
  teq3 (inverse_smoothstep (tmap smoothstep image)) image.
Proof.
  intros Hin. unfold teq3. simpl. repeat split; try reflexivity.
  intros c h w Hc Hh Hw.
  specialize (Hin c h w Hc Hh Hw).
  rewrite clamp_unit_id by (apply smoothstep_unit_range; exact Hin).
  apply tone_inverse_smoothstep. exact Hin.
Qed.

Lemma inverse_smoothstep_of_smoothstep_witness :
  teq3 (inverse_smoothstep (tmap smoothstep (constant_image 3 2 2 0.25)))
       (constant_image 3 2 2 0.25).
Proof.
  apply inverse_smoothstep_of_smoothstep.
  intros i j k _ _ _. simpl. lra.
Defined.

(** X2. [inverse_smoothstep] is monotone: if one image is below another at
    every sample, so are the outputs, whatever the range of the inputs. *)
Theorem inverse_smoothstep_monotone (image1 image2 : tensor3) :
  tle3 image1 image2 ->
  tle3 (inverse_smoothstep image1) (inverse_smoothstep image2).
Proof.
  intros (D0 & D1 & D2 & Hle). unfold tle3. simpl.
  split; [exact D0 | split; [exact D1 | split; [exact D2 |]]].
  intros c h w Hc Hh Hw.
  apply tone_inverse_incr; try apply clamp_unit_range.
  apply clamp_unit_incr. apply Hle; assumption.
Qed.

Lemma inverse_smoothstep_monotone_witness :
  tle3 (inverse_smoothstep (constant_image 3 2 2 0.25))
       (inverse_smoothstep (constant_image 3 2 2 0.75)).
Proof.
  apply inverse_smoothstep_monotone.
  unfold tle3. simpl. repeat split; try reflexivity.
  intros i j k _ _ _. lra.
Defined.

(** X3. Out-of-range samples are clipped before the inversion: a sample at
    or below 0 gives 0 and a sample at or above 1 gives 1. *)
Theorem inverse_smoothstep_clips (image : tensor3) (c h w : nat) :
  (elt3 image c h w <= 0 -> elt3 (inverse_smoothstep image) c h w = 0) /\
  (1 <= elt3 image c h w -> elt3 (inverse_smoothstep image) c h w = 1).
Proof.
  simpl. split; intros Hv.
  - assert (Hc : clamp 0.0 1.0 (elt3 image c h w) = 0).
    { unfold clamp, Rmin, Rmax. repeat (destruct (Rle_dec _ _)); lra. }
    rewrite Hc. replace (1.0 - 2.0 * 0) with 1 by lra.
    rewrite asin_1. replace (PI / 2 / 3.0) with (PI / 6) by lra.
    rewrite sin_PI6. lra.
  - assert (Hc : clamp 0.0 1.0 (elt3 image c h w) = 1).
    { unfold clamp, Rmin, Rmax. repeat (destruct (Rle_dec _ _)); lra. }
    rewrite Hc. replace (1.0 - 2.0 * 1) with (- (1)) by lra.
    rewrite asin_opp, asin_1. replace (- (PI / 2) / 3.0) with (- (PI / 6)) by lra.
    rewrite sin_neg, sin_PI6. lra.
Qed.

(** ** The gamma stage *)

Lemma clamp_min_floor (x : R) : 1e-8 <= clamp_min 1e-8 x.
Proof. unfold clamp_min. apply Rmax_r. Qed.

Lemma clamp_min_id (x : R) : 1e-8 <= x -> clamp_min 1e-8 x = x.
Proof. intros Hx. unfold clamp_min. apply Rmax_left. exact Hx. Qed.

Lemma Rpower_one_base (y : R) : Rpower 1 y = 1.
Proof. unfold Rpower. rewrite ln_1, Rmult_0_r. apply exp_0. Qed.

(** X4. The gamma expansion is undone by the power 1/2.2 on every sample
    that is at least the floor 1e-8. *)
Theorem gamma_expansion_round_trip (image : tensor3) :
  samples_ge 1e-8 image ->
  teq3 (tmap (fun v => Rpower v (1 / 2.2)) (gamma_expansion image)) image.
Proof.
  intros Hge. unfold teq3. simpl. repeat split; try reflexivity.
  intros c h w Hc Hh Hw. specialize (Hge c h w Hc Hh Hw).
  rewrite clamp_min_id by exact Hge.
  rewrite Rpower_mult. replace (2.2 * (1 / 2.2)) with 1 by lra.
  apply Rpower_1. lra.
Qed.

Lemma gamma_expansion_round_trip_witness :
  teq3 (tmap (fun v => Rpower v (1 / 2.2)) (gamma_expansion (constant_image 3 2 2 0.5)))
       (constant_image 3 2 2 0.5).
Proof.
  apply gamma_expansion_round_trip.
  intros i j k _ _ _. simpl. lra.
Defined.

(** X5. The gamma expansion never returns zero or a negative sample: every
    output sample is at least the floor (1e-8)^2.2, which is positive, and
    an input sample at or below 1e-8 (zero and negative samples among them)
    gives exactly that floor. *)
Theorem gamma_expansion_floor (image : tensor3) (c h w : nat) :
  0 < Rpower 1e-8 2.2 /\
  Rpower 1e-8 2.2 <= elt3 (gamma_expansion image) c h w /\
  (elt3 image c h w <= 1e-8 -> elt3 (gamma_expansion image) c h w = Rpower 1e-8 2.2).
Proof.
  simpl. split; [unfold Rpower; apply exp_pos |]. split.
  - apply Rle_Rpower_l; [lra |]. split; [lra | apply clamp_min_floor].
  - intros Hle. f_equal. unfold clamp_min. apply Rmax_right. exact Hle.
Qed.

(** X6. The gamma expansion keeps the unit range: an image with samples in
    [0,1] gives samples in [(1e-8)^2.2, 1], and (1e-8)^2.2 is positive. *)
Theorem gamma_expansion_unit_range (image : tensor3) :
  samples_in 0 1 image ->
  0 < Rpower 1e-8 2.2 /\ samples_in (Rpower 1e-8 2.2) 1 (gamma_expansion image).
Proof.
  intros Hin. split; [unfold Rpower; apply exp_pos |].
  intros c h w Hc Hh Hw. specialize (Hin c h w Hc Hh Hw). simpl.
  split; [apply Rle_Rpower_l; [lra | split; [lra | apply clamp_min_floor]] |].
  apply Rle_trans with (Rpower 1 2.2); [| rewrite Rpower_one_base; lra].
  apply Rle_Rpower_l; [lra |]. split.
  - pose proof (clamp_min_floor (elt3 image c h w)). lra.
  - unfold clamp_min. apply Rmax_lub; lra.
Qed.

Lemma gamma_expansion_unit_range_witness :
  0 < Rpower 1e-8 2.2 /\
  samples_in (Rpower 1e-8 2.2) 1 (gamma_expansion (constant_image 3 2 2 0.5)).
Proof.
  apply (gamma_expansion_unit_range (constant_image 3 2 2 0.5)).
  intros i j k _ _ _. simpl. lra.
Defined.

(** ** The colour-matrix stage, continued *)

Lemma apply_ccm_dims (image : tensor3) (ccm : tensor2) :
  dim0 (apply_ccm image ccm) = dim0 image /\
  dim1 (apply_ccm image ccm) = dim1 image /\
  dim2 (apply_ccm image ccm) = dim2 image.
Proof. repeat split. Qed.

Lemma inverse_left (m : tensor2) :
  det3 m <> 0 ->
  exists inv, inverse m = inr inv /\ rows inv = 3%nat /\ cols inv = 3%nat /\
    forall i j, (i < 3)%nat -> (j < 3)%nat ->
      rsum 3 (fun k => elt2 inv i k * elt2 m k j) = if Nat.eqb i j then 1 else 0.
Proof.
  intros Hd. unfold inverse. destruct (Req_dec_T (det3 m) 0) as [Hz | _]; [contradiction |].
  eexists. split; [reflexivity |]. split; [reflexivity |]. split; [reflexivity |].
  intros i j Hi Hj. unfold cofactor3, det3 in *.
  destruct i as [|[|[|i]]]; try lia; destruct j as [|[|[|j]]]; try lia;
    simpl; field; exact Hd.
Qed.

(** X7. On a three-channel image and a 3x3 matrix, [apply_ccm] keeps the
    shape of the image and sends the colour (r, g, b) of every pixel to the
    product of the matrix with it: output channel c is
    ccm[c,0]*r + ccm[c,1]*g + ccm[c,2]*b. *)
Theorem apply_ccm_matrix_vector (image : tensor3) (ccm : tensor2) :
  dim0 image = 3%nat -> rows ccm = 3%nat -> cols ccm = 3%nat ->
  dim0 (apply_ccm image ccm) = 3%nat /\
  dim1 (apply_ccm image ccm) = dim1 image /\
  dim2 (apply_ccm image ccm) = dim2 image /\
  forall c h w, (c < 3)%nat -> (h < dim1 image)%nat -> (w < dim2 image)%nat ->
    elt3 (apply_ccm image ccm) c h w
    = elt2 ccm c 0 * elt3 image 0 h w + elt2 ccm c 1 * elt3 image 1 h w
      + elt2 ccm c 2 * elt3 image 2 h w.
Proof.
  intros HC HR _.
  split; [exact HC |]. split; [reflexivity |]. split; [reflexivity |].
  intros c h w Hc Hh Hw.
  rewrite apply_ccm_elt by assumption. simpl. ring.
Qed.

Lemma apply_ccm_matrix_vector_witness :
  dim0 (apply_ccm ramp_image eye3) = 3%nat /\
  dim1 (apply_ccm ramp_image eye3) = dim1 ramp_image /\
  dim2 (apply_ccm ramp_image eye3) = dim2 ramp_image /\
  forall c h w, (c < 3)%nat -> (h < dim1 ramp_image)%nat -> (w < dim2 ramp_image)%nat ->
    elt3 (apply_ccm ramp_image eye3) c h w
    = elt2 eye3 c 0 * elt3 ramp_image 0 h w + elt2 eye3 c 1 * elt3 ramp_image 1 h w
      + elt2 eye3 c 2 * elt3 ramp_image 2 h w.
Proof.
  apply (apply_ccm_matrix_vector ramp_image eye3); reflexivity.
Defined.



(** X9. A matrix whose rows sum to 1 keeps neutral colours: [apply_ccm]
    with such a 3x3 matrix returns a gray three-channel image (the three
    channels equal at every pixel) unchanged. *)
Theorem apply_ccm_keeps_gray (image : tensor3) (ccm : tensor2) :
  dim0 image = 3%nat -> rows ccm = 3%nat -> cols ccm = 3%nat ->
  (forall c, (c < 3)%nat -> rsum 3 (fun k => elt2 ccm c k) = 1) ->
  gray_image image ->
  teq3 (apply_ccm image ccm) image.
Proof.
  intros HC HR _ Hrow Hgray.
  split; [reflexivity |]. split; [reflexivity |]. split; [reflexivity |].
  intros c h w Hc Hh Hw.
  change (dim0 (apply_ccm image ccm)) with (dim0 image) in Hc.
  change (dim1 (apply_ccm image ccm)) with (dim1 image) in Hh.
  change (dim2 (apply_ccm image ccm)) with (dim2 image) in Hw.
  rewrite HC in Hc.
  rewrite apply_ccm_elt by assumption. cbn [rsum].
  destruct (Hgray h w Hh Hw) as [G1 G2]. rewrite G1, G2.
  pose proof (Hrow c Hc) as Hs. cbn [rsum] in Hs.
  assert (Hv : elt3 image c h w = elt3 image 0 h w).
  { destruct c as [|[|[|c]]]; try lia; [reflexivity | exact G1 | exact G2]. }
  rewrite Hv.
  match type of Hs with ?a = _ =>
    transitivity (elt3 image 0 h w * a); [ring | rewrite Hs; ring]
  end.
Qed.

Lemma apply_ccm_keeps_gray_witness :
  teq3 (apply_ccm (constant_image 3 2 2 0.5) eye3) (constant_image 3 2 2 0.5).
Proof.
  apply (apply_ccm_keeps_gray (constant_image 3 2 2 0.5) eye3); try reflexivity.
  - intros c Hc. destruct c as [|[|[|c]]]; try lia; simpl; lra.
  - intros h w _ _. split; reflexivity.
Defined.

(** ** The gain stage, continued *)

Lemma highlight_mask_unit_range (image : tensor3) (h w : nat) :
  dim0 image = 3%nat -> samples_in 0 1 image ->
  (h < dim1 image)%nat -> (w < dim2 image)%nat ->
  0 <= highlight_mask image h w <= 1.
Proof.
  intros HC Hin Hh Hw. unfold highlight_mask. rewrite HC. simpl.
  pose proof (Hin 0%nat h w ltac:(lia) Hh Hw) as I0.
  pose proof (Hin 1%nat h w ltac:(lia) Hh Hw) as I1.
  pose proof (Hin 2%nat h w ltac:(lia) Hh Hw) as I2.
  set (gray := (0 + elt3 image 0 h w + elt3 image 1 h w + elt3 image 2 h w) / (1 + 1 + 1)).
  assert (Hg : 0 <= gray <= 1) by (unfold gray; lra).
  assert (Hm : 0 <= clamp_min 0.0 (gray - 0.9) / (1.0 - 0.9) <= 1).
  { unfold clamp_min, Rmax. destruct (Rle_dec _ _); lra. }
  set (m := clamp_min 0.0 (gray - 0.9) / (1.0 - 0.9)) in *. nra.
Qed.

Lemma highlight_mask_below_inflection (image : tensor3) (h w : nat) :
  dim0 image = 3%nat ->
  (elt3 image 0 h w + elt3 image 1 h w + elt3 image 2 h w) / 3 <= 0.9 ->
  highlight_mask image h w = 0.
Proof.
  intros HC Hmean. unfold highlight_mask. rewrite HC. simpl.
  assert (Hc : clamp_min 0.0
                 ((0 + elt3 image 0 h w + elt3 image 1 h w + elt3 image 2 h w) / (1 + 1 + 1)
                  - 0.9) = 0).
  { unfold clamp_min, Rmax. destruct (Rle_dec _ _); lra. }
  rewrite Hc. lra.
Qed.

(** X10. Away from the highlights the mask does nothing: at a pixel whose
    mean over the three channels is at most the inflection 0.9, the output
    of [safe_invert_gains] is the plain gain inversion
    image * ((1/red_gain, 1, 1/blue_gain) / rgb_gain), whatever the gains. *)
Theorem safe_invert_gains_below_inflection
        (image : tensor3) (rgb_gain red_gain blue_gain : R) (c h w : nat) :
  dim0 image = 3%nat -> (c < 3)%nat -> (h < dim1 image)%nat -> (w < dim2 image)%nat ->
  (elt3 image 0 h w + elt3 image 1 h w + elt3 image 2 h w) / 3 <= 0.9 ->
  elt3 (safe_invert_gains image rgb_gain red_gain blue_gain) c h w
  = elt3 (plain_invert_gains image rgb_gain red_gain blue_gain) c h w.
Proof.
  intros HC Hc Hh Hw Hmean.
  rewrite safe_invert_gains_elt by assumption.
  rewrite highlight_mask_below_inflection by assumption.
  unfold plain_invert_gains. cbn [elt3]. rewrite <- channel_gain_plain.
  set (g := channel_gain rgb_gain red_gain blue_gain c).
  replace (0 + (1.0 - 0) * g) with g by lra.
  rewrite Rmax_left by lra. reflexivity.
Qed.

Lemma safe_invert_gains_below_inflection_witness :
  elt3 (safe_invert_gains (constant_image 3 2 2 0.5) 1.25 2 1.5) 0 0 0
  = elt3 (plain_invert_gains (constant_image 3 2 2 0.5) 1.25 2 1.5) 0 0 0.
Proof.
  apply (safe_invert_gains_below_inflection (constant_image 3 2 2 0.5) 1.25 2 1.5 0 0 0).
  - reflexivity.
  - lia.
  - simpl. lia.
  - simpl. lia.
  - simpl. lra.
Defined.

(** X11. With gains that do not brighten (rgb, red and blue gain all at
    least 1) the gain stage never raises a sample: on a three-channel image
    with samples in [0,1] the output is, sample by sample, at most the
    input. *)
Theorem safe_invert_gains_le_input
        (image : tensor3) (rgb_gain red_gain blue_gain : R) :
  dim0 image = 3%nat -> samples_in 0 1 image ->
  1 <= rgb_gain -> 1 <= red_gain -> 1 <= blue_gain ->
  tle3 (safe_invert_gains image rgb_gain red_gain blue_gain) image.
Proof.
  intros HC Hin Hrgb Hred Hblue.
  destruct (safe_invert_gains_dims image rgb_gain red_gain blue_gain HC)
    as (H0 & H1 & H2).
  split; [exact H0 | split; [exact H1 | split; [exact H2 |]]].
  rewrite H0, H1, H2. intros c h w Hc Hh Hw.
  assert (Hc3 : (c < 3)%nat) by lia.
  rewrite safe_invert_gains_elt by assumption.
  pose proof (highlight_mask_unit_range image h w HC Hin Hh Hw) as Hm.
  pose proof (Hin c h w Hc Hh Hw) as Hv.
  assert (Hg : channel_gain rgb_gain red_gain blue_gain c <= 1).
  { rewrite channel_gain_plain.
    assert (Hr : 1 / red_gain <= 1) by (apply div_le_one; lra).
    assert (Hb : 1 / blue_gain <= 1) by (apply div_le_one; lra).
    assert (Hch : nth c [1 / red_gain; 1; 1 / blue_gain] 0 <= 1).
    { destruct c as [|[|[|c]]]; try lia; simpl; lra. }
    assert (Hch0 : 0 <= nth c [1 / red_gain; 1; 1 / blue_gain] 0).
    { assert (0 < 1 / red_gain) by (apply Rdiv_lt_0_compat; lra).
      assert (0 < 1 / blue_gain) by (apply Rdiv_lt_0_compat; lra).
      destruct c as [|[|[|c]]]; try lia; simpl; lra. }
    apply div_le_one; lra. }
  set (g := channel_gain rgb_gain red_gain blue_gain c) in *.
  set (m := highlight_mask image h w) in *.
  assert (Hmax : Rmax (m + (1.0 - m) * g) g <= 1).
  { apply Rmax_lub; [nra | exact Hg]. }
  set (s := Rmax (m + (1.0 - m) * g) g) in *. nra.
Qed.

Lemma safe_invert_gains_le_input_witness :
  tle3 (safe_invert_gains (constant_image 3 2 2 0.95) 1.25 2 1.5)
       (constant_image 3 2 2 0.95).
Proof.
  apply safe_invert_gains_le_input.
  - reflexivity.
  - intros i j k _ _ _. simpl. lra.
  - lra.
  - lra.
  - lra.
Defined.

(** X12. At full saturation the highlight mask replaces a channel's gain by
    the larger of 1 and the gain: on a three-channel image whose samples
    are all 1.0, every output sample of channel c is
    max(1, ((1/red_gain, 1, 1/blue_gain) / rgb_gain)[c]), whatever the
    gains. *)
Theorem safe_invert_gains_saturated_max
        (image : tensor3) (rgb_gain red_gain blue_gain : R) (c h w : nat) :
  dim0 image = 3%nat -> saturated image ->
  (c < 3)%nat -> (h < dim1 image)%nat -> (w < dim2 image)%nat ->
  elt3 (safe_invert_gains image rgb_gain red_gain blue_gain) c h w
  = Rmax 1 (nth c [1 / red_gain; 1; 1 / blue_gain] 0 / rgb_gain).
Proof.
  intros HC Hsat Hc Hh Hw.
  rewrite safe_invert_gains_saturated_elt by assumption.
  rewrite channel_gain_plain. reflexivity.
Qed.

Lemma safe_invert_gains_saturated_max_witness :
  elt3 (safe_invert_gains (constant_image 3 2 2 1.0) 0.8 2 1.5) 1 0 0
  = Rmax 1 (nth 1 [1 / 2; 1; 1 / 1.5] 0 / 0.8).
Proof.
  apply (safe_invert_gains_saturated_max (constant_image 3 2 2 1.0) 0.8 2 1.5 1 0 0).
  - reflexivity.
  - intros c h w _ _ _. reflexivity.
  - lia.
  - simpl. lia.
  - simpl. lia.
Defined.

(** ** The mosaic stage, continued *)

Lemma even_or_odd_bool (n : nat) : Nat.even n = true \/ Nat.odd n = true.
Proof.
  destruct (Nat.even n) eqn:He; [left; reflexivity | right].
  unfold Nat.odd. rewrite He. reflexivity.
Qed.

Lemma half_index_bound (n r0 i : nat) :
  (r0 <= 1)%nat -> (i < n / 2)%nat -> (r0 + 2 * i < n)%nat.
Proof.
  intros Hr Hi.
  pose proof (Nat.Div0.mul_div_le n 2) as Hle. lia.
Qed.


(** On even sizes the mosaic of a three-channel image has the samples of
    the image and no other. *)
Lemma mosaic_even_samples_in (image : tensor3) (lo hi : R) :
  dim0 image = 3%nat ->
  Nat.even (dim1 image) = true -> Nat.even (dim2 image) = true ->
  samples_in lo hi image ->
  exists out, mosaic image = inr out /\
    dim0 out = 4%nat /\ dim1 out = (dim1 image / 2)%nat /\
    dim2 out = (dim2 image / 2)%nat /\
    samples_in lo hi out.
Proof.
  intros HC HeH HeW Hin.
  destruct (mosaic_even image HeH HeW) as (out & Hm & D0 & D1 & D2 & Helt).
  exists out. split; [exact Hm |].
  split; [exact D0 |]. split; [exact D1 |]. split; [exact D2 |].
  intros c i j Hc Hi Hj. rewrite D0 in Hc. rewrite D1 in Hi. rewrite D2 in Hj.
  rewrite Helt by assumption.
  apply Hin.
  - rewrite HC. destruct c as [|[|[|[|c]]]]; simpl; lia.
  - apply half_index_bound; [| exact Hi].
    destruct c as [|[|[|[|c]]]]; simpl; lia.
  - apply half_index_bound; [| exact Hj].
    destruct c as [|[|[|[|c]]]]; simpl; lia.
Qed.

(** X14. [mosaic] only moves samples: on a three-channel image of even
    height and width the output has as many samples as the image has
    pixels, and if every sample of the image lies in [lo, hi] so does every
    sample of the output. *)
Theorem mosaic_keeps_range (image : tensor3) (lo hi : R) :
  dim0 image = 3%nat ->
  Nat.even (dim1 image) = true -> Nat.even (dim2 image) = true ->
  samples_in lo hi image ->
  exists out, mosaic image = inr out /\
    (dim0 out * dim1 out * dim2 out = dim1 image * dim2 image)%nat /\
    samples_in lo hi out.
Proof.
  intros HC HeH HeW Hin.
  destruct (mosaic_even_samples_in image lo hi HC HeH HeW Hin)
    as (out & Hm & D0 & D1 & D2 & Hout).
  exists out. split; [exact Hm |]. split; [| exact Hout].
  rewrite D0, D1, D2.
  apply Nat.even_spec in HeH. destruct HeH as [a Ha].
  apply Nat.even_spec in HeW. destruct HeW as [b Hb].
  rewrite Ha, Hb.
  replace (2 * a / 2)%nat with a by (symmetry; rewrite Nat.mul_comm; apply Nat.div_mul; lia).
  replace (2 * b / 2)%nat with b by (symmetry; rewrite Nat.mul_comm; apply Nat.div_mul; lia).
  lia.
Qed.

Lemma mosaic_keeps_range_witness :
  exists out, mosaic ramp_image = inr out /\
    (dim0 out * dim1 out * dim2 out = dim1 ramp_image * dim2 ramp_image)%nat /\
    samples_in 0 11 out.
Proof.
  apply (mosaic_keeps_range ramp_image 0 11); try reflexivity.
  intros c h w Hc Hh Hw. simpl in Hc, Hh, Hw.
  destruct c as [|[|[|c]]]; try lia;
    destruct h as [|[|h]]; try lia;
    destruct w as [|[|w]]; try lia; simpl; lra.
Defined.

(** ** The samplers, continued *)

Lemma inverse_two_sided (m : tensor2) :
  rows m = 3%nat -> cols m = 3%nat -> det3 m <> 0 ->
  exists inv, inverse m = inr inv /\ teq2 (mm m inv) eye3 /\ teq2 (mm inv m) eye3.
Proof.
  intros HR HC Hd.
  destruct (inverse_right m Hd) as (inv & Hinv & Hright).
  destruct (inverse_left m Hd) as (inv' & Hinv' & IR & IC & Hleft).
  rewrite Hinv in Hinv'. injection Hinv' as <-.
  exists inv. split; [exact Hinv |]. split.
  - split; [exact HR |]. split; [exact IC |].
    intros i j Hi Hj. cbn [mm rows cols elt2] in *. rewrite HR in Hi. rewrite IC in Hj.
    rewrite HC. cbn [eye3 elt2]. apply Hright; assumption.
  - split; [exact IR |]. split; [exact HC |].
    intros i j Hi Hj. cbn [mm rows cols elt2] in *. rewrite IR in Hi. rewrite HC in Hj.
    rewrite IC. cbn [eye3 elt2]. apply Hleft; assumption.
Qed.

Section Sampler_facts.

Context {G : Type} {rng : TorchRng G}.

(** [random_ccm] draws four weights of [1e-8, 1e8] and returns the matrix
    computed from them. *)
Lemma random_ccm_weights (g : G) :
  exists w0 w1 w2 w3 g',
    random_ccm g = inr (ccm_of_weights [w0; w1; w2; w3], g') /\
    0 < w0 /\ 0 < w1 /\ 0 < w2 /\ 0 < w3.
Proof.
  assert (Hle : 1e-8 <= 1e8) by lra.
  destruct (uniform_fill_range (length xyz2cams) 1e-8 1e8 g Hle)
    as (ws & g' & Hfill & Hlen & Hall).
  simpl in Hlen.
  destruct ws as [|w0 [|w1 [|w2 [|w3 [|w4 ws]]]]]; try discriminate Hlen.
  inversion Hall as [|? ? A0 Hall1]; subst.
  inversion Hall1 as [|? ? A1 Hall2]; subst.
  inversion Hall2 as [|? ? A2 Hall3]; subst.
  inversion Hall3 as [|? ? A3 _]; subst.
  exists w0, w1, w2, w3, g'.
  split; [unfold random_ccm, bind; rewrite Hfill; reflexivity |].
  repeat split; lra.
Qed.

(** X15. The matrix [random_ccm] returns is always invertible: whatever
    the weights drawn, [torch.inverse] returns on it, and what it returns is
    a two-sided inverse (both products are the identity). *)
Theorem random_ccm_inverse (g : G) :
  exists m cam g',
    random_ccm g = inr (m, g') /\ inverse m = inr cam /\
    teq2 (mm m cam) eye3 /\ teq2 (mm cam m) eye3.
Proof.
  destruct (random_ccm_weights g) as (w0 & w1 & w2 & w3 & g' & Hccm & P0 & P1 & P2 & P3).
  assert (Hdet : det3 (ccm_of_weights [w0; w1; w2; w3]) <> 0).
  { apply Rgt_not_eq. apply Rlt_gt. apply det3_ccm_of_weights_pos; assumption. }
  destruct (inverse_two_sided (ccm_of_weights [w0; w1; w2; w3]) eq_refl eq_refl Hdet)
    as (cam & Hinv & HR & HL).
  exists (ccm_of_weights [w0; w1; w2; w3]), cam, g'.
  split; [exact Hccm |]. split; [exact Hinv |]. split; assumption.
Qed.

(** X16. With any arguments whose ranges are well formed, [random_gains]
    returns a red gain and a blue gain inside the ranges given, and an rgb
    gain that is [rgb_gain_ratio] times the reciprocal of the normal
    draw. *)
Theorem random_gains_ranges (rgb_gain_ratio : R) (red_gain_range blue_gain_range : R * R)
        (g : G) :
  fst red_gain_range <= snd red_gain_range ->
  fst blue_gain_range <= snd blue_gain_range ->
  exists rgb_gain red_gain blue_gain g',
    random_gains rgb_gain_ratio red_gain_range blue_gain_range g
    = inr ((rgb_gain, red_gain, blue_gain), g') /\
    rgb_gain = rgb_gain_ratio * (1 / fst (normal_sample 0.8 0.1 g)) /\
    fst red_gain_range <= red_gain <= snd red_gain_range /\
    fst blue_gain_range <= blue_gain <= snd blue_gain_range.
Proof.
  intros Hr Hb.
  unfold random_gains, bind, ret, draw_normal, draw_uniform.
  destruct (normal_sample 0.8 0.1 g) as [n g1]. cbn [fst].
  pose proof (uniform_range (fst red_gain_range) (snd red_gain_range) g1 Hr) as Hred.
  destruct (uniform_ (fst red_gain_range) (snd red_gain_range) g1) as [r g2].
  pose proof (uniform_range (fst blue_gain_range) (snd blue_gain_range) g2 Hb) as Hblue.
  destruct (uniform_ (fst blue_gain_range) (snd blue_gain_range) g2) as [b g3].
  cbn [fst] in Hred, Hblue.
  exists (rgb_gain_ratio * (1.0 / n)), r, b, g3.
  split; [reflexivity |]. split; [| split; assumption].
  replace 1.0 with 1 by lra. reflexivity.
Qed.

(** X17. [random_noise_levels] returns a shot noise in [0.0001, 0.012] and
    a positive read noise tied to it by the log-log line:
    ln read_noise = 2.18 * ln shot_noise + 1.20 + n, n the normal draw. *)
Theorem random_noise_levels_ranges (g : G) :
  exists shot_noise read_noise g',
    random_noise_levels g = inr ((shot_noise, read_noise), g') /\
    0.0001 <= shot_noise <= 0.012 /\
    0 < read_noise /\
    ln read_noise
    = 2.18 * ln shot_noise + 1.20
      + fst (normal_sample 0.0 0.26 (snd (uniform_ (ln 0.0001) (ln 0.012) g))).
Proof.
  unfold random_noise_levels, bind, ret, draw_normal, draw_uniform.
  assert (Hln : ln 0.0001 <= ln 0.012).
  { left. apply ln_increasing; lra. }
  pose proof (uniform_range (ln 0.0001) (ln 0.012) g Hln) as Hu.
  destruct (uniform_ (ln 0.0001) (ln 0.012) g) as [u g1]. cbn [fst snd] in *.
  destruct (normal_sample 0.0 0.26 g1) as [n g2]. cbn [fst].
  exists (exp u), (exp (2.18 * u + 1.20 + n)), g2.
  split; [reflexivity |]. split; [| split].
  - assert (Elo : exp (ln 0.0001) = 0.0001) by (apply exp_ln; lra).
    assert (Ehi : exp (ln 0.012) = 0.012) by (apply exp_ln; lra).
    assert (Hmono : forall a b, a <= b -> exp a <= exp b).
    { intros a b [Hlt | ->]; [left; apply exp_increasing; exact Hlt | lra]. }
    pose proof (Hmono _ _ (proj1 Hu)) as Hlo. pose proof (Hmono _ _ (proj2 Hu)) as Hhi.
    rewrite Elo in Hlo. rewrite Ehi in Hhi. split; assumption.
  - apply exp_pos.
  - rewrite !ln_exp. reflexivity.
Qed.

End Sampler_facts.

Lemma random_gains_ranges_witness :
  exists rgb_gain red_gain blue_gain g',
    random_gains (G := list R) 2 (1, 3) (1, 2) [0.8; 2; 1.6]
    = inr ((rgb_gain, red_gain, blue_gain), g') /\
    rgb_gain = 2 * (1 / fst (normal_sample 0.8 0.1 [0.8; 2; 1.6])) /\
    fst (1, 3) <= red_gain <= snd (1, 3) /\
    fst (1, 2) <= blue_gain <= snd (1, 2).
Proof.
  apply (random_gains_ranges (G := list R) 2 (1, 3) (1, 2) [0.8; 2; 1.6]).
  - simpl. lra.
  - simpl. lra.
Defined.

Lemma Rpower_10_neg (n : nat) : Rpower 10 (- INR n) = / 10 ^ n.
Proof. rewrite Rpower_Ropp, Rpower_pow by lra. reflexivity. Qed.

Section Kpn_facts.

Context {G : Type} {nprng : NumpyRng G}.

(** X18. [random_noise_levels_kpn] returns a shot sigma in [1e-4, 1e-2] and
    a read sigma in [1e-3, 10^-1.5], itself below 0.1; the read sigma is
    drawn first. *)
Theorem random_noise_levels_kpn_ranges (g : G) :
  exists sigma_shot sigma_read g',
    random_noise_levels_kpn g = inr ((sigma_shot, sigma_read), g') /\
    sigma_read = Rpower 10 (fst (np_uniform (-3.0) (-1.5) g)) /\
    0.0001 <= sigma_shot <= 0.01 /\
    0.001 <= sigma_read <= Rpower 10 (-1.5) /\
    Rpower 10 (-1.5) <= 0.1.
Proof.
  unfold random_noise_levels_kpn, bind, ret, draw_np_uniform.
  pose proof (np_uniform_range (-3.0) (-1.5) g ltac:(lra)) as Hr.
  destruct (np_uniform (-3.0) (-1.5) g) as [ur g1]. cbn [fst] in *.
  pose proof (np_uniform_range (-4.0) (-2.0) g1 ltac:(lra)) as Hs.
  destruct (np_uniform (-4.0) (-2.0) g1) as [us g2]. cbn [fst] in *.
  exists (Rpower 10 us), (Rpower 10 ur), g2.
  split; [reflexivity |]. split; [reflexivity |].
  assert (E4 : Rpower 10 (-4.0) = 0.0001).
  { replace (-4.0) with (- INR 4) by (simpl; lra). rewrite Rpower_10_neg. lra. }
  assert (E3 : Rpower 10 (-3.0) = 0.001).
  { replace (-3.0) with (- INR 3) by (simpl; lra). rewrite Rpower_10_neg. lra. }
  assert (E2 : Rpower 10 (-2.0) = 0.01).
  { replace (-2.0) with (- INR 2) by (simpl; lra). rewrite Rpower_10_neg. lra. }
  assert (E1 : Rpower 10 (- (1)) = 0.1).
  { replace (- (1)) with (- INR 1) by (simpl; lra). rewrite Rpower_10_neg. lra. }
  split; [| split].
  - rewrite <- E4, <- E2. split; apply Rle_Rpower; lra.
  - rewrite <- E3. split; apply Rle_Rpower; lra.
  - rewrite <- E1. apply Rle_Rpower; lra.
Qed.

End Kpn_facts.

(** ** The entry points, continued *)

Section Entry_point_contracts.

Context {G : Type} {rng : TorchRng G}.

(** What the two sampling entry points return, in terms of the weights and
    gains drawn. *)
Lemma entry_points_weights (image : tensor3) (g : G) :
  exists w0 w1 w2 w3 cam g1,
    (0 < w0 /\ 0 < w1 /\ 0 < w2 /\ 0 < w3) /\
    inverse (ccm_of_weights [w0; w1; w2; w3]) = inr cam /\
    let gt := colour_chain image (ccm_of_weights [w0; w1; w2; w3])
                           (1.0 * (1.0 / normal_draw g1)) (red_draw g1) (blue_draw g1) in
    let meta := mk_metadata cam (ccm_of_weights [w0; w1; w2; w3])
                            (1.0 * (1.0 / normal_draw g1)) (red_draw g1) (blue_draw g1) in
    unprocess_gt image g = inr ((gt, meta), after_gains g1) /\
    unprocess image g = match mosaic gt with
                        | inl e => inl e
                        | inr out => inr ((out, meta), after_gains g1)
                        end.
Proof.
  destruct (entry_points_eq image g) as (m & cam & g1 & Hccm & Hinv & Hgt & Hun).
  destruct (random_ccm_weights g) as (w0 & w1 & w2 & w3 & g' & Hccm' & Hpos).
  rewrite Hccm in Hccm'. injection Hccm' as Hm Hg. subst m g'.
  exists w0, w1, w2, w3, cam, g1.
  split; [exact Hpos |]. split; [exact Hinv |]. split; assumption.
Qed.

(** X19. On a three-channel image [unprocess_gt] never raises.  It returns
    an image of the shape of the input with every sample in [0,1], and a
    metadata record in which cam2rgb is [torch.inverse] of rgb2cam, every
    row of rgb2cam sums to 1, the red gain lies in [1.9, 2.4] and the blue
    gain in [1.5, 1.9]. *)
Theorem unprocess_gt_returns (image : tensor3) (g : G) :
  dim0 image = 3%nat ->
  exists gt meta g',
    unprocess_gt image g = inr ((gt, meta), g') /\
    dim0 gt = 3%nat /\ dim1 gt = dim1 image /\ dim2 gt = dim2 image /\
    samples_in 0 1 gt /\
    inverse (rgb2cam meta) = inr (cam2rgb meta) /\
    (forall i, (i < 3)%nat -> rsum 3 (fun j => elt2 (rgb2cam meta) i j) = 1) /\
    1.9 <= red_gain meta <= 2.4 /\
    1.5 <= blue_gain meta <= 1.9.
Proof.
  intros HC.
  destruct (entry_points_weights image g)
    as (w0 & w1 & w2 & w3 & cam & g1 & (P0 & P1 & P2 & P3) & Hinv & Hgt & _).
  cbv zeta in Hgt.
  destruct (colour_chain_dims image (ccm_of_weights [w0; w1; w2; w3])
              (1.0 * (1.0 / normal_draw g1)) (red_draw g1) (blue_draw g1) HC)
    as (E0 & E1 & E2).
  eexists. eexists. eexists. split; [exact Hgt |].
  split; [exact E0 |]. split; [exact E1 |]. split; [exact E2 |].
  split; [intros c h w _ _ _; apply clamp_unit_range |].
  cbn [rgb2cam cam2rgb red_gain blue_gain].
  split; [exact Hinv |].
  split; [| split; [apply red_draw_range | apply blue_draw_range]].
  intros i Hi. rewrite ccm_of_weights_eq.
  apply row_normalised_sum; [reflexivity | exact Hi |].
  apply Rgt_not_eq. apply Rlt_gt.
  apply rgb2cam_unnormalised_row_pos; assumption.
Qed.

(** X20. On a three-channel image of even height and width [unprocess]
    never raises: it returns an image of shape (4, H/2, W/2) with every
    sample in [0,1]. *)
Theorem unprocess_returns_on_even (image : tensor3) (g : G) :
  dim0 image = 3%nat ->
  Nat.even (dim1 image) = true -> Nat.even (dim2 image) = true ->
  exists out meta g',
    unprocess image g = inr ((out, meta), g') /\
    dim0 out = 4%nat /\
    dim1 out = (dim1 image / 2)%nat /\
    dim2 out = (dim2 image / 2)%nat /\
    samples_in 0 1 out.
Proof.
  intros HC HeH HeW.
  destruct (entry_points_weights image g)
    as (w0 & w1 & w2 & w3 & cam & g1 & _ & _ & _ & Hun).
  cbv zeta in Hun.
  set (gt := colour_chain image (ccm_of_weights [w0; w1; w2; w3])
                          (1.0 * (1.0 / normal_draw g1)) (red_draw g1) (blue_draw g1)) in *.
  destruct (colour_chain_dims image (ccm_of_weights [w0; w1; w2; w3])
              (1.0 * (1.0 / normal_draw g1)) (red_draw g1) (blue_draw g1) HC)
    as (E0 & E1 & E2).
  fold gt in E0, E1, E2.
  assert (Hin : samples_in 0 1 gt).
  { intros c h w _ _ _. apply clamp_unit_range. }
  rewrite <- E1 in HeH. rewrite <- E2 in HeW.
  destruct (mosaic_even_samples_in gt 0 1 E0 HeH HeW Hin)
    as (out & Hm & D0 & D1 & D2 & Hout).
  rewrite Hm in Hun.
  eexists. eexists. eexists. split; [exact Hun |].
  rewrite E1 in D1. rewrite E2 in D2.
  split; [exact D0 |]. split; [exact D1 |]. split; [exact D2 | exact Hout].
Qed.

(** X21. The metadata [unprocess_gt] returns replays the call: fed to
    [unprocess_meta_gt] with the same image, from any generator state, it
    gives the image and the metadata [unprocess_gt] returned, and leaves
    the generator as it found it. *)
Theorem unprocess_meta_gt_replays_unprocess_gt (image : tensor3) (g : G) :
  exists gt meta g',
    unprocess_gt image g = inr ((gt, meta), g') /\
    forall g2 : G,
      unprocess_meta_gt image (rgb_gain meta) (red_gain meta) (blue_gain meta)
                        (rgb2cam meta) (cam2rgb meta) g2
      = inr ((gt, meta), g2).
Proof.
  destruct (entry_points_eq image g) as (m & cam & g1 & _ & _ & Hgt & _).
  cbv zeta in Hgt.
  eexists. eexists. eexists. split; [exact Hgt |].
  intros g2. reflexivity.
Qed.

End Entry_point_contracts.

Lemma unprocess_gt_returns_witness :
  exists gt meta g',
    unprocess_gt (G := list R) (constant_image 3 3 2 0.5) [] = inr ((gt, meta), g') /\
    dim0 gt = 3%nat /\ dim1 gt = 3%nat /\ dim2 gt = 2%nat /\
    samples_in 0 1 gt /\
    inverse (rgb2cam meta) = inr (cam2rgb meta) /\
    (forall i, (i < 3)%nat -> rsum 3 (fun j => elt2 (rgb2cam meta) i j) = 1) /\
    1.9 <= red_gain meta <= 2.4 /\
    1.5 <= blue_gain meta <= 1.9.
Proof.
  apply (unprocess_gt_returns (G := list R) (constant_image 3 3 2 0.5) []).
  reflexivity.
Defined.

Lemma unprocess_returns_on_even_witness :
  exists out meta g',
    unprocess (G := list R) (constant_image 3 4 4 0.5) [] = inr ((out, meta), g') /\
    dim0 out = 4%nat /\
    dim1 out = (4 / 2)%nat /\
    dim2 out = (4 / 2)%nat /\
    samples_in 0 1 out.
Proof.
  apply (unprocess_returns_on_even (G := list R) (constant_image 3 4 4 0.5) []);
    reflexivity.
Defined.

(** ** The colour-matrix sampler, continued *)

Lemma weighted_mean_scale (k w0 w1 w2 w3 m0 m1 m2 m3 : R) :
  0 < k -> 0 < w0 -> 0 < w1 -> 0 < w2 -> 0 < w3 ->
  (0 + m0 * (k * w0) + m1 * (k * w1) + m2 * (k * w2) + m3 * (k * w3))
  / (0 + k * w0 + k * w1 + k * w2 + k * w3)
  = (0 + m0 * w0 + m1 * w1 + m2 * w2 + m3 * w3) / (0 + w0 + w1 + w2 + w3).
Proof.
  intros Hk H0 H1 H2 H3. field. split; [lra |].
  assert (0 < k * w0) by (apply Rmult_lt_0_compat; assumption).
  assert (0 < k * w1) by (apply Rmult_lt_0_compat; assumption).
  assert (0 < k * w2) by (apply Rmult_lt_0_compat; assumption).
  assert (0 < k * w3) by (apply Rmult_lt_0_compat; assumption).
  lra.
Qed.

Lemma rgb2cam_unnormalised_scale (k w0 w1 w2 w3 : R) (i j : nat) :
  0 < k -> 0 < w0 -> 0 < w1 -> 0 < w2 -> 0 < w3 ->
  elt2 (rgb2cam_unnormalised [k * w0; k * w1; k * w2; k * w3]) i j
  = elt2 (rgb2cam_unnormalised [w0; w1; w2; w3]) i j.
Proof.
  intros Hk H0 H1 H2 H3.
  unfold rgb2cam_unnormalised.
  cbn -[Rmult Rplus Rdiv IZR Rinv Rminus nth].
  unfold bget2, bget3. cbn -[Rmult Rplus Rdiv IZR Rinv Rminus nth].
  cbn [nth].
  rewrite !(weighted_mean_scale k w0 w1 w2 w3) by assumption.
  reflexivity.
Qed.

(** X22. The matrix of [random_ccm] depends only on the proportions of the
    weights drawn: multiplying the four positive weights by one positive
    factor gives the same matrix. *)
Theorem ccm_of_weights_scale_invariant (k w0 w1 w2 w3 : R) :
  0 < k -> 0 < w0 -> 0 < w1 -> 0 < w2 -> 0 < w3 ->
  teq2 (ccm_of_weights [k * w0; k * w1; k * w2; k * w3])
       (ccm_of_weights [w0; w1; w2; w3]).
Proof.
  intros Hk H0 H1 H2 H3.
  split; [reflexivity |]. split; [reflexivity |].
  intros i j _ _. rewrite !ccm_of_weights_eq.
  cbn [zip2 sum_last_keepdim elt2 rows cols bget2 rsum].
  change (cols (rgb2cam_unnormalised [k * w0; k * w1; k * w2; k * w3])) with 3%nat.
  change (cols (rgb2cam_unnormalised [w0; w1; w2; w3])) with 3%nat.
  change (rows (rgb2cam_unnormalised [k * w0; k * w1; k * w2; k * w3])) with 3%nat.
  change (rows (rgb2cam_unnormalised [w0; w1; w2; w3])) with 3%nat.
  cbn [rsum]. unfold bget2.
  rewrite !(rgb2cam_unnormalised_scale k w0 w1 w2 w3) by assumption.
  reflexivity.
Qed.

Lemma ccm_of_weights_scale_invariant_witness :
  teq2 (ccm_of_weights [2 * 1; 2 * 3; 2 * 5; 2 * 7]) (ccm_of_weights [1; 3; 5; 7]).
Proof.
  apply ccm_of_weights_scale_invariant; lra.
Defined.

(** ** Composition *)

(** X23. Two colour matrices applied one after the other are one matrix:
    on a three-channel image and 3x3 matrices, [apply_ccm] with [a] and
    then with [b] is [apply_ccm] with the product [torch.mm(b, a)]. *)
Theorem apply_ccm_compose (image : tensor3) (a b : tensor2) :
  dim0 image = 3%nat ->
  rows a = 3%nat -> cols a = 3%nat -> rows b = 3%nat -> cols b = 3%nat ->
  teq3 (apply_ccm (apply_ccm image a) b) (apply_ccm image (mm b a)).
Proof.
  intros HC RA _ RB CB.
  split; [reflexivity |]. split; [reflexivity |]. split; [reflexivity |].
  intros c h w Hc Hh Hw.
  change (dim0 (apply_ccm (apply_ccm image a) b)) with (dim0 image) in Hc.
  change (dim1 (apply_ccm (apply_ccm image a) b)) with (dim1 image) in Hh.
  change (dim2 (apply_ccm (apply_ccm image a) b)) with (dim2 image) in Hw.
  rewrite HC in Hc.
  rewrite (apply_ccm_elt (apply_ccm image a) b) by (try assumption; reflexivity).
  rewrite (apply_ccm_elt image (mm b a)) by (try assumption; reflexivity).
  cbn [rsum].
  rewrite !(apply_ccm_elt image a) by (try assumption; lia).
  cbn [mm elt2 rsum]. rewrite CB. cbn [rsum]. ring.
Qed.

Lemma apply_ccm_compose_witness :
  teq3 (apply_ccm (apply_ccm ramp_image eye3) eye3) (apply_ccm ramp_image (mm eye3 eye3)).
Proof.
  apply (apply_ccm_compose ramp_image eye3 eye3); reflexivity.
Defined.

Section Unprocess_errors.

Context {G : Type} {rng : TorchRng G}.

(** X24. On a three-channel image [unprocess] returns exactly when the
    height and the width are even; when it raises, what it raises is the
    size mismatch of [torch.stack], never a singular matrix. *)
Theorem unprocess_returns_iff_even (image : tensor3) (g : G) :
  dim0 image = 3%nat ->
  ((exists r, unprocess image g = inr r)
   <-> Nat.even (dim1 image) = true /\ Nat.even (dim2 image) = true) /\
  (forall e, unprocess image g = inl e -> e = StackSizeMismatch).
Proof.
  intros HC.
  destruct (entry_points_weights image g)
    as (w0 & w1 & w2 & w3 & cam & g1 & _ & _ & _ & Hun).
  cbv zeta in Hun.
  set (gt := colour_chain image (ccm_of_weights [w0; w1; w2; w3])
                          (1.0 * (1.0 / normal_draw g1)) (red_draw g1) (blue_draw g1)) in *.
  destruct (colour_chain_dims image (ccm_of_weights [w0; w1; w2; w3])
              (1.0 * (1.0 / normal_draw g1)) (red_draw g1) (blue_draw g1) HC)
    as (_ & E1 & E2).
  fold gt in E1, E2. rewrite <- E1, <- E2.
  destruct (even_or_odd_bool (dim1 gt)) as [HeH | HoH];
    destruct (even_or_odd_bool (dim2 gt)) as [HeW | HoW].
  - destruct (mosaic_even gt HeH HeW) as (out & Hm & _).
    rewrite Hm in Hun. rewrite Hun. split.
    + split; [intros _; split; assumption | intros _; eexists; reflexivity].
    + intros e He. discriminate He.
  - assert (Hm : mosaic gt = inl StackSizeMismatch) by (apply mosaic_odd; right; exact HoW).
    rewrite Hm in Hun. rewrite Hun. split.
    + split; [intros [r Hr]; discriminate Hr |].
      intros [_ He]. unfold Nat.odd in HoW. rewrite He in HoW. discriminate HoW.
    + intros e He. injection He as <-. reflexivity.
  - assert (Hm : mosaic gt = inl StackSizeMismatch) by (apply mosaic_odd; left; exact HoH).
    rewrite Hm in Hun. rewrite Hun. split.
    + split; [intros [r Hr]; discriminate Hr |].
      intros [He _]. unfold Nat.odd in HoH. rewrite He in HoH. discriminate HoH.
    + intros e He. injection He as <-. reflexivity.
  - assert (Hm : mosaic gt = inl StackSizeMismatch) by (apply mosaic_odd; left; exact HoH).
    rewrite Hm in Hun. rewrite Hun. split.
    + split; [intros [r Hr]; discriminate Hr |].
      intros [He _]. unfold Nat.odd in HoH. rewrite He in HoH. discriminate HoH.
    + intros e He. injection He as <-. reflexivity.
Qed.

End Unprocess_errors.

Lemma unprocess_returns_iff_even_witness :
  ((exists r, unprocess (G := list R) (constant_image 3 3 2 0.5) [] = inr r)
   <-> Nat.even 3 = true /\ Nat.even 2 = true) /\
  (forall e, unprocess (G := list R) (constant_image 3 3 2 0.5) [] = inl e
             -> e = StackSizeMismatch).
Proof.
  apply (unprocess_returns_iff_even (G := list R) (constant_image 3 3 2 0.5) []).
  reflexivity.
Defined.
